(** * telegram-audiomemes: the command router of [main.py] over the meme store

    The development embeds [src/main.py]: the handlers ([cmd_cancel],
    [meme_handler], [audio_handler], [name_handler], [cmd_name], [cmd_delete],
    [cmd_rename], [cmd_fix], [inlinequery], [error_handler]) and the handler
    table that [main] registers.  Handlers are written in a small
    state-and-exception monad over a [World] that holds the meme store, the
    per-user [user_data] dictionaries, the conversation table of the
    [ConversationHandler], the messages sent so far and the state of the
    platform.

    The modules [model], [utils], [custom_filters] and [converter] are
    imported by [main.py] but are not part of the sources at hand; what is
    needed of them is modelled from the specification and marked as such. *)

From Stdlib Require Import ZArith List String Ascii Bool Lia.
From stdpp Require Import base option list gmap strings.

Local Open Scope string_scope.
Local Open Scope Z_scope.

(** ** Python strings *)

(** The text handled by the bot is modelled as ASCII text; [isspace] is
    Python's [str.isspace] on that range (tab, line feed, vertical tab, form
    feed, carriage return, the four separators 28..31 and space). *)
Definition isspace (c : ascii) : bool :=
  let n := nat_of_ascii c in
  ((9 <=? n)%nat && (n <=? 13)%nat) || ((28 <=? n)%nat && (n <=? 32)%nat).

Definition is_empty (s : string) : bool :=
  match s with EmptyString => true | String _ _ => false end.

(** [s.lstrip()], [s.rstrip()] and [s.strip()]. *)
Fixpoint lstrip (s : string) : string :=
  match s with
  | EmptyString => EmptyString
  | String c s' => if isspace c then lstrip s' else s
  end.

Fixpoint rstrip (s : string) : string :=
  match s with
  | EmptyString => EmptyString
  | String c s' =>
      let r := rstrip s' in
      if isspace c && is_empty r then EmptyString else String c r
  end.

Definition strip (s : string) : string := rstrip (lstrip s).

(** The first and the last character of a string, and the strings that
    consist of whitespace only: the words in which [strip] is specified. *)
Definition first_char (s : string) : option ascii :=
  match s with
  | EmptyString => None
  | String c _ => Some c
  end.

Fixpoint last_char (s : string) : option ascii :=
  match s with
  | EmptyString => None
  | String c s' => if is_empty s' then Some c else last_char s'
  end.

Fixpoint all_space (s : string) : bool :=
  match s with
  | EmptyString => true
  | String c s' => isspace c && all_space s'
  end.

(** [s.split()]: the maximal runs of non-whitespace characters, in order.
    [cur] is the run being read. *)
Fixpoint split_from (cur : string) (s : string) : list string :=
  match s with
  | EmptyString => if is_empty cur then [] else [cur]
  | String c s' =>
      if isspace c
      then (if is_empty cur then split_from EmptyString s'
            else cur :: split_from EmptyString s')
      else split_from (cur +:+ String c EmptyString) s'
  end.

Definition split (s : string) : list string := split_from EmptyString s.

(** [sep.join(l)]. *)
Fixpoint join (sep : string) (l : list string) : string :=
  match l with
  | [] => EmptyString
  | [x] => x
  | x :: rest => x +:+ sep +:+ join sep rest
  end.

(** The part of [s] before the first occurrence of the character [c]
    ([s.split(c)[0]]). *)
Fixpoint before (c : ascii) (s : string) : string :=
  match s with
  | EmptyString => EmptyString
  | String d s' => if Ascii.eqb c d then EmptyString else String d (before c s')
  end.

(** [s.startswith(p)] *)
Fixpoint startswith (p s : string) : bool :=
  match p, s with
  | EmptyString, _ => true
  | String a p', String b s' => Ascii.eqb a b && startswith p' s'
  | String _ _, EmptyString => false
  end.

(** The double quote character, for the reply texts that quote a name. *)
Definition dquote : string := String (ascii_of_nat 34) EmptyString.

(** ** The data model ([model.Meme]) *)

(** Modelled from the spec: the class [Meme] of the module [model], which is
    not among the sources.  Section 3 of the specification gives its fields;
    [id] is [None] until the store assigns one, and [times_used] defaults to
    0 when the constructor is called without it (as [cmd_fix] does). *)
Record Meme : Type := mkMeme {
  id : option Z;
  name : string;
  file_id : string;
  owner_id : Z;
  times_used : Z
}.

#[global] Instance Meme_eq_dec : EqDecision Meme.
Proof. solve_decision. Defined.

(** [Meme(name=..., file_id=..., owner_id=...)]: the constructor with the
    defaults for [id] and [times_used]. *)
Definition Meme_default (n f : string) (o : Z) : Meme :=
  mkMeme None n f o 0.

Inductive Exn : Type :=
| KeyError          (* the store's NotFound *)
| Unauthorized
| AttributeError
| NetworkError
| ConversionError
| TelegramError.

Definition Exn_eqb (a b : Exn) : bool :=
  match a, b with
  | KeyError, KeyError | Unauthorized, Unauthorized
  | AttributeError, AttributeError | NetworkError, NetworkError
  | ConversionError, ConversionError | TelegramError, TelegramError => true
  | _, _ => false
  end.

(** The outcome of a call: a value, or a raised exception. *)
Inductive Res (A : Type) : Type :=
| Ok (a : A)
| Raise (e : Exn).
Arguments Ok {A} a.
Arguments Raise {A} e.

(** ** The meme store ([model.SqliteMemeStorage]) *)

Module SqliteMemeStorage.

(** Modelled from the spec: the class [SqliteMemeStorage] of the module
    [model], which is not among the sources.  The table is the list of its
    rows in insertion order; [last_id] is the highest id handed out so far
    (ids are never reused, section 3). *)
Record t : Type := mk {
  rows : list Meme;
  last_id : Z
}.

Definition empty : t := mk [] 0.

(** Modelled from the spec: [add(meme) -> Meme] inserts a new record with an
    id assigned by the store and returns the stored record.  A duplicate
    [file_id] is not prevented (section 4.1). *)
Definition add (m : Meme) (st : t) : Meme * t :=
  let i := last_id st + 1 in
  let stored := mkMeme (Some i) (name m) (file_id m) (owner_id m) (times_used m) in
  (stored, mk (rows st ++ [stored]) i).

(** Modelled from the spec: [get_by_file_id(file_id) -> Meme] is an exact
    lookup that fails with NotFound (a [KeyError] for the router) when no
    record matches.  With several records under one [file_id] the oldest
    one answers. *)
Definition get_by_file_id (f : string) (st : t) : Exn + Meme :=
  match List.find (fun m => String.eqb (file_id m) f) (rows st) with
  | Some m => inr m
  | None => inl KeyError
  end.

(** Modelled from the spec: [find(query)] matches the query against [name];
    the matching rule is left open there and is the parameter [matches]. *)
Definition find (matches : string -> string -> bool) (q : string) (st : t)
  : list Meme :=
  List.filter (fun m => matches q (name m)) (rows st).

(** Modelled from the spec: [get_all()] yields all records. *)
Definition get_all (st : t) : list Meme := rows st.

(** Modelled from the spec: [delete_by_file_id(file_id, requester_id)] fails
    with NotFound if absent, with Unauthorized if the requester is not the
    owner, and otherwise removes what is stored under that [file_id]. *)
Definition delete_by_file_id (f : string) (requester : Z) (st : t)
  : Exn + t :=
  match get_by_file_id f st with
  | inl e => inl e
  | inr m =>
      if owner_id m =? requester
      then inr (mk (List.filter (fun r => negb (String.eqb (file_id r) f)) (rows st))
                   (last_id st))
      else inl Unauthorized
  end.

(** Modelled from the spec: [rename(id, new_name, requester_id)] fails with
    Unauthorized if the requester is not the owner and otherwise updates
    [name] in place; a miss on [id] is NotFound (section 7).  The argument is
    the [id] field of a record as the router passes it. *)
Definition rename (i : option Z) (new_name : string) (requester : Z) (st : t)
  : Exn + t :=
  match List.find (fun m => bool_decide (id m = i)) (rows st) with
  | None => inl KeyError
  | Some m =>
      if owner_id m =? requester
      then inr (mk (List.map
                      (fun r => if bool_decide (id r = i)
                                then mkMeme (id r) new_name (file_id r)
                                            (owner_id r) (times_used r)
                                else r)
                      (rows st))
                   (last_id st))
      else inl Unauthorized
  end.

End SqliteMemeStorage.

(** ** Telegram objects *)

Definition Bytes : Type := list Byte.byte.

Record Document : Type := mkDocument {
  doc_file_id : string;
  mime_type : string
}.

(** The fields of [telegram.Message] that the handlers and the filters read.
    [quoted_voice] is [message.reply_to_message.voice.file_id] when the message
    is a reply to a voice message. *)
Record Message : Type := mkMessage {
  chat_id : Z;
  from_user : Z;
  text : option string;
  voice : option string;
  audio : option string;
  document : option Document;
  quoted_voice : option string
}.

Record InlineQuery : Type := mkInlineQuery {
  query_id : string;
  query_from : Z;
  query : string
}.

Inductive Update : Type :=
| message_update (m : Message)
| inline_query_update (q : InlineQuery).

Inductive ParseMode : Type := HTML | Markdown.

Record InlineQueryResultCachedVoice : Type := mkResult {
  result_id : string;
  voice_file_id : string;
  title : string
}.

(** What the bot has handed to the platform. *)
Inductive Sent : Type :=
| sent_text (chat : Z) (body : string) (parse_mode : option ParseMode)
| sent_voice (chat : Z) (file : Bytes) (issued : string)
| sent_answer (to : string) (results : list InlineQueryResultCachedVoice)
              (cache_time : Z).

Inductive LogRecord : Type :=
| log_info_inline_query (q : string)
| log_warning (u : Update) (e : Exn).

(** ** The collaborators *)

(** What [main.py] uses and neither defines nor imports from a module at
    hand: the platform behind [reply_voice], the download of [utils], the
    converter, [uuid4], the MIME test of [IsAudioDocument], the matching rule
    of [find] and the text with which [inject_quoted_voice_id] reports a
    missing quotation.  The platform has a state of its own ([Env]), so that
    the same call may answer differently at different times. *)
Class Platform : Type := {
  Env : Type;
  download_file : string -> Env -> (Exn + Bytes) * Env;
  convert_to_ogg : Bytes -> Exn + Bytes;
  send_voice : Z -> Bytes -> Env -> (Exn + string) * Env;
  uuid4 : Env -> string * Env;
  audio_mime : string -> bool;
  name_matches : string -> string -> bool;
  no_quoted_voice_text : string
}.

Section Router.

Context {P : Platform}.

(** ** The world the handlers act on *)

Record World : Type := mkWorld {
  meme_storage : SqliteMemeStorage.t;
  user_data : gmap Z (gmap string string);
  conversations : gmap (Z * Z) Z;
  outbox : list Sent;
  logged : list LogRecord;
  env : Env
}.

Definition set_storage (st : SqliteMemeStorage.t) (w : World) : World :=
  mkWorld st (user_data w) (conversations w) (outbox w) (logged w) (env w).
Definition set_user_data (ud : gmap Z (gmap string string)) (w : World) : World :=
  mkWorld (meme_storage w) ud (conversations w) (outbox w) (logged w) (env w).
Definition set_conversations (cs : gmap (Z * Z) Z) (w : World) : World :=
  mkWorld (meme_storage w) (user_data w) cs (outbox w) (logged w) (env w).
Definition set_outbox (o : list Sent) (w : World) : World :=
  mkWorld (meme_storage w) (user_data w) (conversations w) o (logged w) (env w).
Definition set_logged (l : list LogRecord) (w : World) : World :=
  mkWorld (meme_storage w) (user_data w) (conversations w) (outbox w) l (env w).
Definition set_env (e : Env) (w : World) : World :=
  mkWorld (meme_storage w) (user_data w) (conversations w) (outbox w) (logged w) e.

(** ** The monad of the handlers: state and Python exceptions *)

(** A raised exception keeps the world as it was when it was raised: nothing
    is rolled back. *)
Definition M (A : Type) : Type := World -> Res A * World.

Definition ret {A : Type} (a : A) : M A := fun w => (Ok a, w).

Definition raise {A : Type} (e : Exn) : M A := fun w => (Raise e, w).

Definition bind {A B : Type} (m : M A) (k : A -> M B) : M B :=
  fun w =>
    match m w with
    | (Ok a, w') => k a w'
    | (Raise e, w') => (Raise e, w')
    end.

Notation "x <~ m ;; k" := (bind m (fun x => k))
  (at level 100, m at next level, right associativity).
Notation "m ;;; k" := (bind m (fun _ => k))
  (at level 100, right associativity).

Definition of_sum {A : Type} (r : Exn + A) : M A :=
  match r with
  | inl e => raise e
  | inr a => ret a
  end.

(** *** The calls the handlers make *)

Definition reply_text (message : Message) (body : string)
    (parse_mode : option ParseMode) : M unit :=
  fun w => (Ok tt, set_outbox (outbox w ++ [sent_text (chat_id message) body parse_mode]) w).

(** [message.reply_voice(file).voice.file_id]: the platform stores the voice
    and issues its [file_id], or the upload fails. *)
Definition reply_voice (message : Message) (file : Bytes) : M string :=
  fun w =>
    match send_voice (chat_id message) file (env w) with
    | (inr f, e') =>
        (Ok f, set_outbox (outbox w ++ [sent_voice (chat_id message) file f])
                 (set_env e' w))
    | (inl x, e') => (Raise x, set_env e' w)
    end.

Definition answer (q : InlineQuery) (results : list InlineQueryResultCachedVoice)
    (cache_time : Z) : M unit :=
  fun w => (Ok tt, set_outbox (outbox w ++ [sent_answer (query_id q) results cache_time]) w).

Definition download (f : string) : M Bytes :=
  fun w =>
    match download_file f (env w) with
    | (inr b, e') => (Ok b, set_env e' w)
    | (inl x, e') => (Raise x, set_env e' w)
    end.

Definition convert (b : Bytes) : M Bytes := of_sum (convert_to_ogg b).

Definition fresh_uuid : M string :=
  fun w => let '(u, e') := uuid4 (env w) in (Ok u, set_env e' w).

Definition logger_info (q : string) : M unit :=
  fun w => (Ok tt, set_logged (logged w ++ [log_info_inline_query q]) w).

(** [meme_storage.<method>(...)] on the global store. *)
Definition storage_add (m : Meme) : M Meme :=
  fun w =>
    let '(stored, st') := SqliteMemeStorage.add m (meme_storage w) in
    (Ok stored, set_storage st' w).

Definition storage_get_by_file_id (f : string) : M Meme :=
  fun w => of_sum (SqliteMemeStorage.get_by_file_id f (meme_storage w)) w.

Definition storage_delete_by_file_id (f : string) (requester : Z) : M unit :=
  fun w =>
    match SqliteMemeStorage.delete_by_file_id f requester (meme_storage w) with
    | inr st' => (Ok tt, set_storage st' w)
    | inl e => (Raise e, w)
    end.

Definition storage_rename (i : option Z) (new_name : string) (requester : Z)
    : M unit :=
  fun w =>
    match SqliteMemeStorage.rename i new_name requester (meme_storage w) with
    | inr st' => (Ok tt, set_storage st' w)
    | inl e => (Raise e, w)
    end.

Definition storage_find (q : string) : M (list Meme) :=
  fun w => (Ok (SqliteMemeStorage.find name_matches q (meme_storage w)), w).

Definition storage_get_all : M (list Meme) :=
  fun w => (Ok (SqliteMemeStorage.get_all (meme_storage w)), w).

(** [user_data[key] = value] and [user_data[key]] on the dictionary that the
    dispatcher keeps for the user (created empty on first use). *)
Definition user_data_set (user : Z) (key value : string) : M unit :=
  fun w =>
    (Ok tt,
     set_user_data (<[user := <[key := value]> (default ∅ (user_data w !! user))]>
                      (user_data w)) w).

Definition user_data_get (user : Z) (key : string) : M string :=
  fun w =>
    match default ∅ (user_data w !! user) !! key with
    | Some v => (Ok v, w)
    | None => (Raise KeyError, w)
    end.

(** An attribute read on an object that may be [None]. *)
Definition attr {A : Type} (o : option A) : M A :=
  match o with
  | Some a => ret a
  | None => raise AttributeError
  end.

Fixpoint mapM {A B : Type} (f : A -> M B) (l : list A) : M (list B) :=
  match l with
  | [] => ret []
  | a :: l' => b <~ f a ;; bs <~ mapM f l' ;; ret (b :: bs)
  end.

(** ** The handlers of [main.py]

    The [bot] argument only reaches [download_file] and is left out; a handler
    returns what the Python function returns ([None] where it falls off the
    end or returns bare). *)

Definition NAME : Z := 1.

(** [ConversationHandler.END] *)
Definition END : Z := -1.

Definition cmd_cancel (message : Message) : M (option Z) :=
  reply_text message "Current operation has been canceled." None ;;;
  ret (Some END).

(** Handles known memes, returns their names. *)
Definition meme_handler (message : Message) : M (option Z) :=
  f <~ attr (voice message) ;;
  meme <~ storage_get_by_file_id f ;;
  reply_text message ("Name: " +:+ dquote +:+ name meme +:+ dquote) None ;;;
  ret None.

Definition audio_handler (message : Message) : M (option Z) :=
  meme_file_id <~
    match voice message with
    | Some f => ret f
    | None =>
        reply_text message "Converting to voice..." None ;;;
        audio <~ attr (match audio message with
                       | Some a => Some a
                       | None => doc_file_id <$> document message
                       end) ;;
        audio_file <~ download audio ;;
        meme_file <~ convert audio_file ;;
        reply_voice message meme_file
    end ;;
  user_data_set (from_user message) "meme_file_id" meme_file_id ;;;
  reply_text message "Okay, now send me the name for the meme." None ;;;
  ret (Some NAME).

Definition name_handler (message : Message) : M (option Z) :=
  t <~ attr (text message) ;;
  let meme_name := strip t in
  file_id <~ user_data_get (from_user message) "meme_file_id" ;;
  let meme := mkMeme None meme_name file_id (from_user message) 0 in
  storage_add meme ;;;
  reply_text message "Meme has been added." None ;;;
  ret (Some END).

(** Modelled from the spec: the decorator [inject_quoted_voice_id] of the
    module [utils], which is not among the sources.  The handler receives the
    [file_id] of the quoted voice message; a message that quotes no voice is
    reported to the user and the handler is not run (section 4.2). *)
Definition inject_quoted_voice_id {A : Type}
    (handler : Message -> A -> string -> M (option Z))
    (message : Message) (args : A) : M (option Z) :=
  match quoted_voice message with
  | Some f => handler message args f
  | None => reply_text message no_quoted_voice_text None ;;; ret None
  end.

(** [try: x = body  except e: handler; return] followed by [rest], which
    runs only when [body] did not raise; an exception other than [e] goes
    on to the caller. *)
Definition try_except_return {A : Type} (body : M A) (e : Exn)
    (handler : M unit) (rest : A -> M (option Z)) : M (option Z) :=
  fun w =>
    match body w with
    | (Ok a, w') => rest a w'
    | (Raise e', w') =>
        if Exn_eqb e e' then (handler ;;; ret None) w' else (Raise e', w')
    end.

(** Returns the name of a meme. *)
Definition cmd_name : Message -> unit -> M (option Z) :=
  inject_quoted_voice_id (fun message _ quoted_voice_id =>
    try_except_return (storage_get_by_file_id quoted_voice_id) KeyError
      (reply_text message "I don't know that meme, sorry." None)
      (fun meme =>
         reply_text message (name meme) None ;;;
         ret None)).

(** Deletes a meme by voice file. *)
Definition cmd_delete : Message -> unit -> M (option Z) :=
  inject_quoted_voice_id (fun message _ quoted_voice_id =>
    try_except_return
      (meme <~ storage_get_by_file_id quoted_voice_id ;; ret (name meme))
      KeyError
      (reply_text message "I don't know that meme, sorry." None)
      (fun meme_name =>
         try_except_return
           (storage_delete_by_file_id quoted_voice_id (from_user message))
           Unauthorized
           (reply_text message
              "Sorry, you can only delete the memes you added yourself." None)
           (fun _ =>
              reply_text message
                ("The meme " +:+ dquote +:+ meme_name +:+ dquote
                 +:+ " has been deleted.") None ;;;
              ret None))).

(** Changes the name of the meme. *)
Definition cmd_rename : Message -> list string -> M (option Z) :=
  inject_quoted_voice_id (fun message args quoted_voice_id =>
    let new_name := join " " args in
    if is_empty new_name
    then reply_text message "Usage: /rename <i>new name</i>" (Some HTML) ;;;
         ret None
    else
      try_except_return (storage_get_by_file_id quoted_voice_id) KeyError
        (reply_text message "Sorry, I don't know that meme." None)
        (fun meme =>
           try_except_return
             (storage_rename (id meme) new_name (from_user message))
             Unauthorized
             (reply_text message
                "Sorry, you can only rename the memes you added yourself." None)
             (fun _ =>
                reply_text message
                  ("The meme has been renamed to " +:+ dquote +:+ new_name
                   +:+ dquote) None ;;;
                ret None))).

(** Fixes meme's playback on Android. *)
Definition cmd_fix : Message -> unit -> M (option Z) :=
  inject_quoted_voice_id (fun message _ quoted_voice_id =>
    try_except_return (storage_get_by_file_id quoted_voice_id) KeyError
      (reply_text message "Sorry, I don't know that meme." None)
      (fun meme =>
         try_except_return
           (storage_delete_by_file_id (file_id meme) (from_user message))
           Unauthorized
           (reply_text message
              "Sorry, you can only fix the memes you added yourself." None)
           (fun _ =>
              audio_file <~ download quoted_voice_id ;;
              fixed_file <~ convert audio_file ;;
              fixed_file_id <~ reply_voice message fixed_file ;;
              storage_add (Meme_default (name meme) fixed_file_id (owner_id meme)) ;;;
              reply_text message "The meme has been fixed" None ;;;
              ret None))).

Definition inlinequery (q : InlineQuery) : M (option Z) :=
  let query := query q in
  logger_info query ;;;
  memes <~ (if negb (is_empty query)
            then storage_find query
            else storage_get_all) ;;
  let memes := firstn 10 memes in
  results <~ mapM (fun meme =>
                     u <~ fresh_uuid ;;
                     ret (mkResult u (file_id meme) (name meme)))
                  memes ;;
  answer q results 0 ;;;
  ret None.

Definition error_handler (u : Update) (error : Exn) (w : World) : World :=
  set_logged (logged w ++ [log_warning u error]) w.

(** ** Filters *)

(** [Filters.text]: a text message that is not a command. *)
Definition Filters_text (m : Message) : bool :=
  match text m with
  | Some s => negb (is_empty s) && negb (startswith "/" s)
  | None => false
  end.

Definition Filters_audio (m : Message) : bool := bool_decide (is_Some (audio m)).

Definition Filters_voice (m : Message) : bool := bool_decide (is_Some (voice m)).

(** Modelled from the spec: the filter [IsAudioDocument] of the module
    [custom_filters], which is not among the sources: a document recognized
    as audio (section 4.2). *)
Definition is_audio_document (m : Message) : bool :=
  match document m with
  | Some d => audio_mime (mime_type d)
  | None => false
  end.

(** Modelled from the spec: the filter [IsMeme] of the module
    [custom_filters], which is not among the sources: a voice message whose
    [file_id] is that of a stored meme (section 4.2). *)
Definition is_meme (w : World) (m : Message) : bool :=
  match voice m with
  | Some f =>
      match SqliteMemeStorage.get_by_file_id f (meme_storage w) with
      | inr _ => true
      | inl _ => false
      end
  | None => false
  end.

(** The command a message carries and its arguments: the text starts with a
    slash, the command is its first word without the slash, up to an at sign,
    and the arguments are [message.text.split()[1:]].  The word is compared
    as it stands. *)
Definition command_of (m : Message) : option (string * list string) :=
  match text m with
  | Some s =>
      if startswith "/" s
      then match split s with
           | String _ (String c word) :: args =>
               Some (before "@"%char (String c word), args)
           | _ => None
           end
      else None
  | None => None
  end.

(** ** The handler classes of the SDK *)

Inductive Handler : Type :=
| MessageHandler (filters : World -> Message -> bool)
                 (callback : Message -> M (option Z))
| CommandHandler (command : string)
                 (callback : Message -> list string -> M (option Z))
| InlineQueryHandler (callback : InlineQuery -> M (option Z)).

(** A command handler registered without [pass_args]. *)
Definition without_args (callback : Message -> unit -> M (option Z))
    : Message -> list string -> M (option Z) :=
  fun message _ => callback message tt.

Definition check_update (h : Handler) (w : World) (u : Update) : bool :=
  match h, u with
  | MessageHandler filters _, message_update m => filters w m
  | CommandHandler command _, message_update m =>
      match command_of m with
      | Some (c, _) => String.eqb c command
      | None => false
      end
  | InlineQueryHandler _, inline_query_update _ => true
  | _, _ => false
  end.

Definition handle_update (h : Handler) (u : Update) : M (option Z) :=
  match h, u with
  | MessageHandler _ callback, message_update m => callback m
  | CommandHandler _ callback, message_update m =>
      callback m (match command_of m with
                  | Some (_, args) => args
                  | None => []
                  end)
  | InlineQueryHandler callback, inline_query_update q => callback q
  | _, _ => ret None
  end.

Definition first_match (hs : list Handler) (w : World) (u : Update)
    : option Handler :=
  List.find (fun h => check_update h w u) hs.

(** A [ConversationHandler] with the default key, the pair of the chat and
    the user.  The table [conversations] of the world holds the state of
    every conversation that is under way; a key that is absent is idle. *)
Record ConversationHandler : Type := mkConversationHandler {
  entry_points : list Handler;
  states : Z -> list Handler;
  fallbacks : list Handler
}.

(** [ConversationHandler.check_update]: the handler that will take the
    update, with the key of the conversation, if there is one.  An idle
    conversation looks at the entry points only; a conversation under way
    looks at the handlers of its state and then at the fallbacks. *)
Definition conversation_check_update (c : ConversationHandler) (w : World)
    (u : Update) : option ((Z * Z) * Handler) :=
  match u with
  | inline_query_update _ => None
  | message_update m =>
      let key := (chat_id m, from_user m) in
      match conversations w !! key with
      | None => pair key <$> first_match (entry_points c) w u
      | Some state =>
          match first_match (states c state) w u with
          | Some h => Some (key, h)
          | None => pair key <$> first_match (fallbacks c) w u
          end
      end
  end.

(** [ConversationHandler.update_state] *)
Definition update_state (new_state : option Z) (key : Z * Z) (w : World)
    : World :=
  match new_state with
  | None => w
  | Some s =>
      if s =? END
      then set_conversations (delete key (conversations w)) w
      else set_conversations (<[key := s]> (conversations w)) w
  end.

(** [ConversationHandler.handle_update]: the state is updated with what the
    callback returns; a callback that raises leaves it as it was. *)
Definition conversation_handle_update (key : Z * Z) (h : Handler) (u : Update)
    : M unit :=
  fun w =>
    match handle_update h u w with
    | (Ok new_state, w') => (Ok tt, update_state new_state key w')
    | (Raise e, w') => (Raise e, w')
    end.

Inductive Registered : Type :=
| plain (h : Handler)
| conversation (c : ConversationHandler).

(** The dispatcher: the handlers of the one group are asked in the order of
    their registration and the first that accepts the update handles it. *)
Fixpoint dispatch (handlers : list Registered) (u : Update) : M unit :=
  fun w =>
    match handlers with
    | [] => (Ok tt, w)
    | plain h :: rest =>
        if check_update h w u
        then (handle_update h u ;;; ret tt) w
        else dispatch rest u w
    | conversation c :: rest =>
        match conversation_check_update c w u with
        | Some (key, h) => conversation_handle_update key h u w
        | None => dispatch rest u w
        end
    end.

(** An exception that leaves a handler is logged at the error boundary and
    the update is dropped. *)
Definition process_update (handlers : list Registered) (u : Update) (w : World)
    : World :=
  match dispatch handlers u w with
  | (Ok _, w') => w'
  | (Raise e, w') => error_handler u e w'
  end.

(** ** [main]: the handler table *)

Definition conv_handler : ConversationHandler :=
  mkConversationHandler
    [MessageHandler
       (fun w m => negb (is_meme w m)
                   && (Filters_audio m || Filters_voice m || is_audio_document m))
       audio_handler]
    (fun state => if state =? NAME
                  then [MessageHandler (fun _ m => Filters_text m) name_handler]
                  else [])
    [CommandHandler "cancel" (fun m _ => cmd_cancel m)].

Definition main : list Registered :=
  [ conversation conv_handler;
    plain (MessageHandler is_meme meme_handler);
    plain (CommandHandler "name" (without_args cmd_name));
    plain (CommandHandler "delete" (without_args cmd_delete));
    plain (CommandHandler "rename" cmd_rename);
    plain (CommandHandler "fix" (without_args cmd_fix));
    plain (InlineQueryHandler inlinequery) ].

(** One inbound update, and a run of them. *)
Definition step (u : Update) (w : World) : World := process_update main u w.

Definition run (us : list Update) (w : World) : World :=
  fold_left (fun w u => step u w) us w.

(** The world at start-up over a store [st] (the database file persists). *)
Definition start (st : SqliteMemeStorage.t) (e : Env) : World :=
  mkWorld st ∅ ∅ [] [] e.


(** What the dispatcher makes of the outcome of a handler. *)
Definition settle {A : Type} (u : Update) (r : Res A * World) : World :=
  match r with
  | (Ok _, w') => w'
  | (Raise e, w') => error_handler u e w'
  end.




(** The three steps between the delete and the add of [cmd_fix] fail with
    [e]: at the download, at the conversion or at the upload. *)
Definition reupload_fails (w : World) (chat : Z) (f : string) (e : Exn) : Prop :=
  (exists e1, download_file f (env w) = (inl e, e1))
  \/ (exists b e1,
        download_file f (env w) = (inr b, e1) /\ convert_to_ogg b = inl e)
  \/ (exists b e1 b' e2,
        download_file f (env w) = (inr b, e1) /\ convert_to_ogg b = inr b'
        /\ send_voice chat b' e1 = (inl e, e2)).

(** The [file_id] that waits for its name in the [user_data] of a user. *)
Definition pending (w : World) (user : Z) : option string :=
  default ∅ (user_data w !! user) !! "meme_file_id".

(** Every conversation under way has a pending [file_id] for its user. *)
Definition conversations_have_pending (w : World) : Prop :=
  forall chat user state,
    conversations w !! (chat, user) = Some state -> is_Some (pending w user).

(** A two-state specification of a run in the monad: [R] relates the world
    before to the world after, whether the run returns or raises, and [Q]
    holds of the value returned and the world after. *)
Definition ensures {A : Type} (R : World -> World -> Prop)
    (Q : A -> World -> Prop) (m : M A) : Prop :=
  forall w,
    match m w with
    | (Ok a, w') => R w w' /\ Q a w'
    | (Raise _, w') => R w w'
    end.

Definition anything {A : Type} : A -> World -> Prop := fun _ _ => True.

(** The sender of an update. *)
Definition sender (u : Update) : Z :=
  match u with
  | message_update m => from_user m
  | inline_query_update q => query_from q
  end.

(** The callbacks that [main] registers, inside and outside the
    conversation. *)
Definition conversation_handlers : list Handler :=
  entry_points conv_handler ++ states conv_handler NAME ++ fallbacks conv_handler.

Definition plain_handlers : list Handler :=
  [ MessageHandler is_meme meme_handler;
    CommandHandler "name" (without_args cmd_name);
    CommandHandler "delete" (without_args cmd_delete);
    CommandHandler "rename" cmd_rename;
    CommandHandler "fix" (without_args cmd_fix);
    InlineQueryHandler inlinequery ].

(** What a callback may return to the conversation: nothing, the end of the
    conversation, or [NAME] with a [file_id] pending for the sender. *)
Definition returns_state (u : Update) (new_state : option Z) (w' : World) : Prop :=
  new_state = None \/ new_state = Some END
  \/ (new_state = Some NAME /\ is_Some (pending w' (sender u))).

(** Two preorders on worlds: the conversations are as they were and no
    pending [file_id] is lost; the conversations are as they were and the
    [user_data] of one user is as it was. *)
Definition keeps_pending (w w' : World) : Prop :=
  conversations w' = conversations w
  /\ forall user, is_Some (pending w user) -> is_Some (pending w' user).

Definition leaves_user (user : Z) (w w' : World) : Prop :=
  conversations w' = conversations w
  /\ user_data w' !! user = user_data w !! user.

(** The texts of the conversation. *)
Definition ask_for_name : string := "Okay, now send me the name for the meme.".

Definition meme_added : string := "Meme has been added.".



End Router.

(** ** Sample platforms and updates *)

Fixpoint tally (n : nat) : string :=
  match n with
  | O => EmptyString
  | S n' => String "i"%char (tally n')
  end.

(** A platform on which everything succeeds: the state counts the uploads
    and the identifiers drawn, and the n-th upload is issued the file id
    ["up"] followed by n strokes. *)
Definition calm : Platform := {|
  Env := nat;
  download_file := fun _ e => (inr [], e);
  convert_to_ogg := fun b => inr b;
  send_voice := fun _ _ e => (inr ("up" +:+ tally e), S e);
  uuid4 := fun e => ("uuid" +:+ tally e, S e);
  audio_mime := fun s => String.eqb s "audio/mpeg";
  name_matches := fun q n => String.eqb q n;
  no_quoted_voice_text := "Reply to a voice message."
|}.

(** A platform on which every download fails. *)
Definition offline : Platform := {|
  Env := nat;
  download_file := fun _ e => (inl NetworkError, e);
  convert_to_ogg := fun b => inr b;
  send_voice := fun _ _ e => (inr ("up" +:+ tally e), S e);
  uuid4 := fun e => ("uuid" +:+ tally e, S e);
  audio_mime := fun s => String.eqb s "audio/mpeg";
  name_matches := fun q n => String.eqb q n;
  no_quoted_voice_text := "Reply to a voice message."
|}.

Definition voice_message (chat user : Z) (f : string) : Message :=
  mkMessage chat user None (Some f) None None None.

Definition text_message (chat user : Z) (t : string) : Message :=
  mkMessage chat user (Some t) None None None None.

(** A text message sent as a reply to the voice message [f]. *)
Definition quoting (chat user : Z) (t f : string) : Message :=
  mkMessage chat user (Some t) None None None (Some f).

(** The store of the scenario of section 8: the meme "oof" of user 1. *)
Definition oof_store : SqliteMemeStorage.t :=
  snd (SqliteMemeStorage.add (Meme_default "oof" "AAA" 1) SqliteMemeStorage.empty).

(** The bot at start-up over the store of the scenario, on each platform. *)
Definition oof_world : @World calm := @start calm oof_store 0%nat.

Definition oof_world_offline : @World offline := @start offline oof_store 0%nat.

(** The record of the meme "oof" as stored. *)
Definition oof : Meme := mkMeme (Some 1) "oof" "AAA" 1 0.

(** ** Histories of the store *)

(** The mutations the store offers; a store is what a history of them makes
    of the empty table. *)
Inductive StoreOp : Type :=
| op_add (m : Meme)
| op_delete_by_file_id (f : string) (requester : Z)
| op_rename (i : option Z) (new_name : string) (requester : Z).

(** One operation: the store after it (unchanged when it fails) and the id it
    issued, if it is an [add]. *)
Definition apply_op (o : StoreOp) (st : SqliteMemeStorage.t)
    : SqliteMemeStorage.t * list Z :=
  match o with
  | op_add m =>
      let '(stored, st') := SqliteMemeStorage.add m st in
      (st', match id stored with Some i => [i] | None => [] end)
  | op_delete_by_file_id f requester =>
      (match SqliteMemeStorage.delete_by_file_id f requester st with
       | inr st' => st'
       | inl _ => st
       end, [])
  | op_rename i new_name requester =>
      (match SqliteMemeStorage.rename i new_name requester st with
       | inr st' => st'
       | inl _ => st
       end, [])
  end.

(** The store after a history and the ids issued during it, oldest first. *)
Fixpoint replay (ops : list StoreOp) (st : SqliteMemeStorage.t)
    : SqliteMemeStorage.t * list Z :=
  match ops with
  | [] => (st, [])
  | o :: rest =>
      let '(st1, issued1) := apply_op o st in
      let '(st2, issued2) := replay rest st1 in
      (st2, (issued1 ++ issued2)%list)
  end.

Definition store_after (ops : list StoreOp) : SqliteMemeStorage.t :=
  fst (replay ops SqliteMemeStorage.empty).


(** ** Invariants of the store *)

(** Every id in the table is at most [last_id]. *)
Definition ids_bounded (st : SqliteMemeStorage.t) : Prop :=
  forall r i, In r (SqliteMemeStorage.rows st) -> id r = Some i ->
              i <= SqliteMemeStorage.last_id st.

(** Ids are unique in the table (section 3), and stay so. *)
Definition ids_unique (st : SqliteMemeStorage.t) : Prop :=
  List.NoDup (List.map id (SqliteMemeStorage.rows st)).



(** ** Further notions about the router *)

(** What an update may be answered with: a text or a voice in the chat of
    the message, or an answer to the inline query, with cache time 0. *)
Definition addressed (u : Update) (x : Sent) : Prop :=
  match u, x with
  | message_update m, sent_text chat _ _ => chat = chat_id m
  | message_update m, sent_voice chat _ _ => chat = chat_id m
  | inline_query_update q, sent_answer to _ cache_time =>
      to = query_id q /\ cache_time = 0
  | _, _ => False
  end.



(** [r'] is the record [r] up to its name. *)
Definition same_but_name (r r' : Meme) : Prop :=
  id r' = id r /\ file_id r' = file_id r /\ owner_id r' = owner_id r
  /\ times_used r' = times_used r.






Definition converting : string := "Converting to voice...".

(** The file that [audio_handler] fetches for a message without a voice: the
    audio if there is one, and the document otherwise. *)
Definition audio_source (m : Message) : option string :=
  match audio m with
  | Some a => Some a
  | None => doc_file_id <$> document m
  end.







(** ** More sample worlds and updates *)

(** The bot after user 7 has sent the voice "BBB" in chat 5: it waits for
    the name. *)
Definition waiting_world : @World calm :=
  @step calm (message_update (voice_message 5 7 "BBB")) oof_world.

(** An audio file, sent as such. *)
Definition audio_message (chat user : Z) (f : string) : Message :=
  mkMessage chat user None None (Some f) None None.
(** * Properties *)

(** ** Strings *)

Lemma append_String (c : ascii) (a b : string) :
  String c a +:+ b = String c (a +:+ b).
Proof. reflexivity. Qed.

Lemma lstrip_spec (s : string) :
  exists a, s = a +:+ lstrip s /\ all_space a = true
            /\ forall c, first_char (lstrip s) = Some c -> isspace c = false.
Proof.
  induction s as [|c s IH]; simpl.
  - exists EmptyString. repeat split. discriminate.
  - destruct (isspace c) eqn:E.
    + destruct IH as (a & Hs & Ha & Hc). exists (String c a).
      rewrite append_String. cbn [all_space]. rewrite E, Ha, <- Hs. repeat split. exact Hc.
    + exists EmptyString. repeat split. simpl. intros ? [= <-]. exact E.
Qed.

Lemma rstrip_spec (s : string) :
  exists b, s = rstrip s +:+ b /\ all_space b = true
            /\ forall c, last_char (rstrip s) = Some c -> isspace c = false.
Proof.
  induction s as [|c s IH]; simpl.
  - exists EmptyString. repeat split. discriminate.
  - destruct IH as (b & Hs & Hb & Hc).
    destruct (isspace c) eqn:E; simpl.
    + destruct (rstrip s) as [|d r] eqn:Er; simpl in *.
      * exists (String c b). change (EmptyString +:+ b) with b in Hs.
        cbn [all_space]. rewrite E, Hb, <- Hs. repeat split. discriminate.
      * exists b. rewrite append_String, <- Hs. repeat split; [exact Hb|exact Hc].
    + exists b. rewrite append_String, <- Hs. split; [reflexivity|]. split; [exact Hb|].
      destruct (rstrip s) as [|d r]; simpl in *; [intros ? [= <-]; exact E|exact Hc].
Qed.

Lemma rstrip_keeps_first_char (s : string) (c : ascii) :
  first_char (rstrip s) = Some c -> first_char s = Some c.
Proof.
  destruct s as [|d s]; simpl; [discriminate|].
  destruct (isspace d && is_empty (rstrip s)); [discriminate|trivial].
Qed.

(** [strip] trims: the text is the stripped text between two runs of
    whitespace, and the stripped text neither starts nor ends with a
    whitespace character. *)
Lemma strip_spec (s : string) :
  exists a b,
    s = a +:+ strip s +:+ b
    /\ all_space a = true /\ all_space b = true
    /\ (forall c, first_char (strip s) = Some c -> isspace c = false)
    /\ (forall c, last_char (strip s) = Some c -> isspace c = false).
Proof.
  destruct (lstrip_spec s) as (a & Hs & Ha & Hfirst).
  destruct (rstrip_spec (lstrip s)) as (b & Hl & Hb & Hlast).
  exists a, b. unfold strip. rewrite <- Hl, <- Hs.
  repeat split; try assumption.
  intros c Hc. apply Hfirst. now apply rstrip_keeps_first_char.
Qed.

(** ** The store *)

Module StoreFacts.
Import SqliteMemeStorage.



Lemma get_by_file_id_absent (f : string) (st : t) :
  (forall m, In m (rows st) -> file_id m <> f) ->
  get_by_file_id f st = inl KeyError.
Proof.
  intros H. unfold get_by_file_id.
  destruct (List.find _ (rows st)) as [m'|] eqn:E; [|reflexivity].
  apply find_some in E as [Hin Heq]. apply String.eqb_eq in Heq.
  now apply H in Hin.
Qed.


Lemma find_app_some {A : Type} (p : A -> bool) (l1 l2 : list A) (a : A) :
  List.find p l1 = Some a -> List.find p (l1 ++ l2) = Some a.
Proof.
  induction l1 as [|b l1 IH]; simpl; [discriminate|].
  destruct (p b); [trivial|exact IH].
Qed.


(** [add] does not disturb the lookup of a [file_id] that is stored. *)
Lemma get_after_add_stored (m r : Meme) (f : string) (st : t) :
  get_by_file_id f st = inr r ->
  get_by_file_id f (snd (add m st)) = inr r.
Proof.
  unfold get_by_file_id, add. simpl.
  destruct (List.find _ (rows st)) eqn:E; [|discriminate].
  intros [= <-]. now rewrite (find_app_some _ _ _ _ E).
Qed.




Lemma get_after_delete (f : string) (requester : Z) (st st' : t) :
  delete_by_file_id f requester st = inr st' ->
  get_by_file_id f st' = inl KeyError.
Proof.
  unfold delete_by_file_id.
  destruct (get_by_file_id f st) as [|m]; [discriminate|].
  destruct (owner_id m =? requester); [|discriminate].
  intros [= <-]. apply get_by_file_id_absent. simpl.
  intros r Hin Heq. apply filter_In in Hin as [_ Hin].
  apply String.eqb_eq in Heq. rewrite Heq in Hin. discriminate.
Qed.

End StoreFacts.

(** ** Ids over a history of the store *)

Lemma ids_bounded_empty : ids_bounded SqliteMemeStorage.empty.
Proof. intros r i []. Qed.

Lemma ids_bounded_add (m : Meme) (st : SqliteMemeStorage.t) :
  ids_bounded st -> ids_bounded (snd (SqliteMemeStorage.add m st)).
Proof.
  intros Hb r i Hin Hid. simpl in *.
  apply in_app_or in Hin as [Hin|[<-|[]]].
  - specialize (Hb r i Hin Hid). lia.
  - simpl in Hid. injection Hid as <-. lia.
Qed.

Lemma ids_bounded_delete (f : string) (requester : Z) (st st' : SqliteMemeStorage.t) :
  ids_bounded st ->
  SqliteMemeStorage.delete_by_file_id f requester st = inr st' ->
  ids_bounded st'.
Proof.
  unfold SqliteMemeStorage.delete_by_file_id.
  destruct (SqliteMemeStorage.get_by_file_id f st) as [|m]; [discriminate|].
  destruct (owner_id m =? requester); [|discriminate].
  intros Hb [= <-] r i Hin Hid. simpl in *.
  apply filter_In in Hin as [Hin _]. exact (Hb r i Hin Hid).
Qed.

Lemma ids_bounded_rename (i : option Z) (n : string) (requester : Z)
    (st st' : SqliteMemeStorage.t) :
  ids_bounded st ->
  SqliteMemeStorage.rename i n requester st = inr st' ->
  ids_bounded st'.
Proof.
  unfold SqliteMemeStorage.rename.
  destruct (List.find _ _) as [m|]; [|discriminate].
  destruct (owner_id m =? requester); [|discriminate].
  intros Hb [= <-] r j Hin Hid. simpl in *.
  apply in_map_iff in Hin as (r0 & Hr & Hin).
  apply (Hb r0 j Hin). destruct (bool_decide _); subst r; exact Hid.
Qed.

Lemma apply_op_bounds (o : StoreOp) (st : SqliteMemeStorage.t) :
  ids_bounded st ->
  ids_bounded (fst (apply_op o st))
  /\ SqliteMemeStorage.last_id st <= SqliteMemeStorage.last_id (fst (apply_op o st))
  /\ forall i, In i (snd (apply_op o st)) ->
               SqliteMemeStorage.last_id st < i
               <= SqliteMemeStorage.last_id (fst (apply_op o st)).
Proof.
  intros Hb. destruct o as [m|f requester|i n requester]; simpl.
  - split; [exact (ids_bounded_add m st Hb)|]. split; [lia|].
    intros i [<-|[]]. lia.
  - destruct (SqliteMemeStorage.delete_by_file_id f requester st) as [|st'] eqn:E.
    + split; [exact Hb|]. split; [lia|]. intros ? [].
    + split; [exact (ids_bounded_delete _ _ _ _ Hb E)|].
      unfold SqliteMemeStorage.delete_by_file_id in E.
      destruct (SqliteMemeStorage.get_by_file_id f st) as [|m]; [discriminate|].
      destruct (owner_id m =? requester); [|discriminate].
      injection E as <-. simpl. split; [lia|]. intros ? [].
  - destruct (SqliteMemeStorage.rename i n requester st) as [|st'] eqn:E.
    + split; [exact Hb|]. split; [lia|]. intros ? [].
    + split; [exact (ids_bounded_rename _ _ _ _ _ Hb E)|].
      unfold SqliteMemeStorage.rename in E.
      destruct (List.find _ _) as [m|]; [|discriminate].
      destruct (owner_id m =? requester); [|discriminate].
      injection E as <-. simpl. split; [lia|]. intros ? [].
Qed.

Lemma replay_bounds (ops : list StoreOp) :
  forall st, ids_bounded st ->
    ids_bounded (fst (replay ops st))
    /\ SqliteMemeStorage.last_id st <= SqliteMemeStorage.last_id (fst (replay ops st))
    /\ forall i, In i (snd (replay ops st)) ->
                 SqliteMemeStorage.last_id st < i
                 <= SqliteMemeStorage.last_id (fst (replay ops st)).
Proof.
  induction ops as [|o rest IH]; intros st Hb; simpl.
  - split; [exact Hb|]. split; [lia|]. intros ? [].
  - destruct (apply_op_bounds o st Hb) as (Hb1 & Hle1 & Hin1).
    destruct (apply_op o st) as [st1 issued1]. simpl in *.
    destruct (IH st1 Hb1) as (Hb2 & Hle2 & Hin2).
    destruct (replay rest st1) as [st2 issued2]. simpl in *.
    split; [exact Hb2|]. split; [lia|].
    intros i Hin. apply in_app_or in Hin as [Hin|Hin].
    + specialize (Hin1 i Hin). lia.
    + specialize (Hin2 i Hin). lia.
Qed.

(** The ids issued during a history are pairwise distinct. *)
Lemma issued_NoDup (ops : list StoreOp) :
  forall st, ids_bounded st -> List.NoDup (snd (replay ops st)).
Proof.
  induction ops as [|o rest IH]; intros st Hb; simpl; [constructor|].
  destruct (apply_op_bounds o st Hb) as (Hb1 & Hle1 & Hin1).
  destruct (replay_bounds rest (fst (apply_op o st)) Hb1) as (_ & _ & Hin2).
  specialize (IH (fst (apply_op o st)) Hb1).
  destruct (apply_op o st) as [st1 issued1] eqn:E1. simpl in *.
  destruct (replay rest st1) as [st2 issued2]. simpl in *.
  assert (Hone : List.NoDup issued1).
  { destruct o; simpl in E1; injection E1 as <- <-; repeat constructor.
    intros []. }
  clear E1. induction issued1 as [|i l IHl]; simpl; [exact IH|].
  inversion Hone; subst. constructor.
  - intros Hin. apply in_app_or in Hin as [Hin|Hin]; [contradiction|].
    specialize (Hin1 i (or_introl eq_refl)). specialize (Hin2 i Hin). lia.
  - apply IHl; [|assumption]. intros j Hj. apply Hin1. now right.
Qed.






Lemma NoDup_map_filter {A B : Type} (f : A -> B) (p : A -> bool) (l : list A) :
  List.NoDup (List.map f l) -> List.NoDup (List.map f (List.filter p l)).
Proof.
  induction l as [|a l IH]; simpl; [trivial|].
  intros Hnd. inversion Hnd as [|? ? Hnotin Hnd']; subst.
  destruct (p a); simpl; [|now apply IH].
  constructor; [|now apply IH].
  intros Hin. apply Hnotin. apply in_map_iff in Hin as (x & Hx & Hin).
  apply filter_In in Hin as [Hin _]. rewrite <- Hx. now apply in_map.
Qed.

Lemma NoDup_snoc {A : Type} (l : list A) (x : A) :
  List.NoDup l -> ~ In x l -> List.NoDup (l ++ [x]).
Proof.
  induction l as [|a l IH]; simpl; intros Hnd Hx.
  - repeat constructor. intros [].
  - inversion Hnd as [|? ? Hnotin Hnd']; subst. constructor.
    + intros Hin. apply in_app_or in Hin as [Hin|[<-|[]]]; tauto.
    + apply IH; tauto.
Qed.

Lemma ids_unique_add (m : Meme) (st : SqliteMemeStorage.t) :
  ids_bounded st -> ids_unique st ->
  ids_unique (snd (SqliteMemeStorage.add m st)).
Proof.
  unfold ids_unique. simpl. intros Hb Hnd.
  rewrite List.map_app. simpl.
  apply NoDup_snoc; [exact Hnd|].
  intros Hin. apply in_map_iff in Hin as (r & Hr & Hin).
  specialize (Hb r _ Hin Hr). lia.
Qed.

Lemma apply_op_ids_unique (o : StoreOp) (st : SqliteMemeStorage.t) :
  ids_bounded st -> ids_unique st -> ids_unique (fst (apply_op o st)).
Proof.
  intros Hb Hnd. destruct o as [m|f requester|i n requester]; simpl.
  - exact (ids_unique_add m st Hb Hnd).
  - unfold SqliteMemeStorage.delete_by_file_id.
    destruct (SqliteMemeStorage.get_by_file_id f st) as [|m]; [exact Hnd|].
    destruct (owner_id m =? requester); [|exact Hnd].
    unfold ids_unique. simpl. now apply NoDup_map_filter.
  - unfold SqliteMemeStorage.rename.
    destruct (List.find _ _) as [m|]; [|exact Hnd].
    destruct (owner_id m =? requester); [|exact Hnd].
    unfold ids_unique. simpl. rewrite List.map_map.
    erewrite map_ext; [exact Hnd|].
    intros r. simpl. now destruct (bool_decide _).
Qed.

Lemma replay_ids_unique (ops : list StoreOp) :
  forall st, ids_bounded st -> ids_unique st -> ids_unique (fst (replay ops st)).
Proof.
  induction ops as [|o rest IH]; intros st Hb Hnd; simpl; [exact Hnd|].
  pose proof (apply_op_ids_unique o st Hb Hnd) as Hnd1.
  destruct (apply_op_bounds o st Hb) as (Hb1 & _).
  destruct (apply_op o st) as [st1 issued1]. simpl in *.
  specialize (IH st1 Hb1 Hnd1).
  destruct (replay rest st1) as [st2 issued2]. exact IH.
Qed.

(** Every store that a history builds has unique ids. *)
Lemma store_after_ids_unique (ops : list StoreOp) : ids_unique (store_after ops).
Proof.
  apply replay_ids_unique; [exact ids_bounded_empty|constructor].
Qed.


(** ** The router *)

Section Properties.

Context {P : Platform}.









(** *** [/delete] *)



(** *** [/rename] *)




(** *** [/fix] *)






(** *** Inline queries *)

(** The list comprehension of [inlinequery]: one result per meme, in order,
    with the meme's [file_id] and name; only identifiers are drawn. *)
Lemma results_of_memes (memes : list Meme) :
  forall w, exists results w',
    mapM (fun meme => bind fresh_uuid (fun u =>
                      ret (mkResult u (file_id meme) (name meme)))) memes w
    = (Ok results, w')
    /\ List.map (fun r => (voice_file_id r, title r)) results
       = List.map (fun m => (file_id m, name m)) memes
    /\ meme_storage w' = meme_storage w
    /\ outbox w' = outbox w
    /\ user_data w' = user_data w
    /\ conversations w' = conversations w
    /\ logged w' = logged w.
Proof.
  induction memes as [|m memes IH]; intros w.
  - exists [], w. repeat split; reflexivity.
  - cbn [mapM]. unfold bind at 1. cbv beta. unfold bind at 1.
    unfold fresh_uuid at 1.
    destruct (uuid4 (env w)) as [u e'] eqn:Eu. cbn [ret].
    destruct (IH (set_env e' w)) as (results & w' & Hrun & Hmap & Hs & Ho & Hu & Hc & Hl).
    exists (mkResult u (file_id m) (name m) :: results), w'.
    unfold bind at 1. rewrite Hrun. cbn [ret].
    split; [reflexivity|]. split; [simpl; now rewrite Hmap|].
    repeat split; assumption.
Qed.

Lemma step_inline_query (w : World) (q : InlineQuery) :
  step (inline_query_update q) w = settle (inline_query_update q) (inlinequery q w).
Proof.
  unfold step, process_update. cbn [main dispatch conversation_check_update
    check_update handle_update]. unfold bind, settle, ret.
  now destruct (inlinequery q w) as [[?|?] ?].
Qed.

(** C5: an inline query is always answered, without an exception: with one
    result for each of the first ten memes of [find(query)] when the query is
    not empty and of [get_all()] when it is, in order, so with at most ten
    results and with all of them when there are at most ten; the answer is
    sent with cache time 0 and the store is not touched. *)
Theorem inlinequery_answers_at_most_ten (q : InlineQuery) (w : World) :
  let source :=
    if is_empty (query q)
    then SqliteMemeStorage.get_all (meme_storage w)
    else SqliteMemeStorage.find name_matches (query q) (meme_storage w) in
  exists results w',
    inlinequery q w = (Ok None, w')
    /\ outbox w' = (outbox w ++ [sent_answer (query_id q) results 0])%list
    /\ List.map (fun r => (voice_file_id r, title r)) results
       = List.map (fun m => (file_id m, name m)) (firstn 10 source)
    /\ (length results <= 10)%nat
    /\ ((length source <= 10)%nat -> length results = length source)
    /\ meme_storage w' = meme_storage w
    /\ step (inline_query_update q) w = w'.
Proof.
  intros source.
  unfold inlinequery. cbv zeta. unfold bind at 1. unfold logger_info at 1.
  set (w1 := set_logged _ w).
  unfold bind at 1.
  assert (Hsrc' : (if negb (is_empty (query q))
                   then storage_find (query q) else storage_get_all) w1
                  = (Ok source, w1)).
  { subst source. destruct (is_empty (query q)); reflexivity. }
  rewrite Hsrc'. clear Hsrc'.
  destruct (results_of_memes (firstn 10 source) w1)
    as (results & w2 & Hrun & Hmap & Hs & Ho & _).
  unfold bind at 1. rewrite Hrun.
  exists results. eexists. unfold bind, answer, ret.
  split; [reflexivity|].
  assert (Hlen : length results = length (firstn 10 source)).
  { apply (f_equal (@length _)) in Hmap. now rewrite !List.length_map in Hmap. }
  cbn [outbox set_outbox meme_storage].
  split; [now rewrite Ho|]. split; [exact Hmap|].
  rewrite Hlen, List.length_firstn.
  split; [lia|]. split; [lia|]. split; [now rewrite Hs|].
  rewrite step_inline_query. unfold inlinequery. cbv zeta.
  unfold bind at 1. unfold logger_info at 1. fold w1.
  unfold bind at 1.
  replace ((if negb (is_empty (query q))
            then storage_find (query q) else storage_get_all) w1)
    with (Ok source, w1)
    by (subst source; destruct (is_empty (query q)); reflexivity).
  unfold bind at 1. rewrite Hrun. reflexivity.
Qed.

(** *** The cases of the dispatcher *)

(** An update is taken by no handler, by one of the plain handlers, or by a
    handler of the conversation of its chat and sender. *)
Lemma dispatch_cases (u : Update) (w : World) :
  dispatch main u w = (Ok tt, w)
  \/ (exists h, In h plain_handlers
                /\ dispatch main u w = bind (handle_update h u) (fun _ => ret tt) w)
  \/ (exists m h, u = message_update m /\ In h conversation_handlers
                  /\ dispatch main u w
                     = conversation_handle_update (chat_id m, from_user m) h u w).
Proof.
  unfold main. cbn [dispatch].
  destruct (conversation_check_update conv_handler w u) as [[key h]|] eqn:E.
  - right; right. unfold conversation_check_update in E.
    destruct u as [m|q]; [|discriminate]. exists m, h.
    split; [reflexivity|]. unfold conversation_handlers.
    destruct (conversations w !! (chat_id m, from_user m)) as [state|].
    + destruct (first_match (states conv_handler state) w (message_update m))
        as [h'|] eqn:E1.
      * injection E as <- <-. split; [|reflexivity].
        apply find_some in E1 as [Hin _]. cbn [states conv_handler] in Hin.
        destruct (state =? NAME); [|destruct Hin].
        apply in_or_app; right; apply in_or_app; left. exact Hin.
      * destruct (first_match (fallbacks conv_handler) w (message_update m))
          as [h'|] eqn:E2; [|discriminate].
        injection E as <- <-. split; [|reflexivity].
        apply find_some in E2 as [Hin _].
        apply in_or_app; right; apply in_or_app; right. exact Hin.
    + destruct (first_match (entry_points conv_handler) w (message_update m))
        as [h'|] eqn:E1; [|discriminate].
      injection E as <- <-. split; [|reflexivity].
      apply find_some in E1 as [Hin _]. apply in_or_app; left. exact Hin.
  - unfold plain_handlers.
    repeat match goal with
           | |- context [if check_update ?h w u then _ else _] =>
               destruct (check_update h w u);
               [right; left; exists h; split; [simpl; tauto|reflexivity]|]
           end.
    left. reflexivity.
Qed.

(** *** A frame rule for the handlers *)

Section Frame.

(** [R] is a preorder on worlds that looks at [user_data] and at the
    conversation table only. *)
Variable R : World -> World -> Prop.
Hypothesis R_refl : forall w, R w w.
Hypothesis R_trans : forall w1 w2 w3, R w1 w2 -> R w2 w3 -> R w1 w3.
Hypothesis R_frame :
  forall w w', user_data w' = user_data w ->
               conversations w' = conversations w -> R w w'.

Lemma ensures_ret {A : Type} (Q : A -> World -> Prop) (a : A) :
  (forall w, Q a w) -> ensures R Q (ret a).
Proof. intros HQ w. simpl. split; [apply R_refl|apply HQ]. Qed.

Lemma ensures_raise {A : Type} (Q : A -> World -> Prop) (e : Exn) :
  ensures R Q (raise e).
Proof. intros w. simpl. apply R_refl. Qed.

Lemma ensures_bind {A B : Type} (Q1 : A -> World -> Prop)
    (Q : B -> World -> Prop) (m : M A) (k : A -> M B) :
  ensures R Q1 m -> (forall a, ensures R Q (k a)) -> ensures R Q (bind m k).
Proof.
  intros Hm Hk w. unfold bind. specialize (Hm w).
  destruct (m w) as [[a|e] w1]; [|exact Hm].
  destruct Hm as [HR _]. specialize (Hk a w1).
  destruct (k a w1) as [[b|e] w2].
  - destruct Hk as [HR2 HQ]. split; [exact (R_trans _ _ _ HR HR2)|exact HQ].
  - exact (R_trans _ _ _ HR Hk).
Qed.

Lemma ensures_try {A : Type} (Q1 : A -> World -> Prop) (Q2 : unit -> World -> Prop)
    (Q : option Z -> World -> Prop)
    (body : M A) (e : Exn) (handler : M unit) (rest : A -> M (option Z)) :
  ensures R Q1 body -> ensures R Q2 handler ->
  (forall a, ensures R Q (rest a)) -> (forall w, Q None w) ->
  ensures R Q (try_except_return body e handler rest).
Proof.
  intros Hb Hh Hr HQ w. unfold try_except_return. specialize (Hb w).
  destruct (body w) as [[a|e'] w1].
  - destruct Hb as [HR _]. specialize (Hr a w1).
    destruct (rest a w1) as [[b|e''] w2].
    + destruct Hr as [HR2 HQ2]. split; [exact (R_trans _ _ _ HR HR2)|exact HQ2].
    + exact (R_trans _ _ _ HR Hr).
  - destruct (Exn_eqb e e'); [|exact Hb].
    unfold bind, ret. specialize (Hh w1).
    destruct (handler w1) as [[[]|e''] w2].
    + destruct Hh as [HR2 _]. split; [exact (R_trans _ _ _ Hb HR2)|apply HQ].
    + exact (R_trans _ _ _ Hb Hh).
Qed.

Lemma ensures_weaken {A : Type} (Q Q' : A -> World -> Prop) (m : M A) :
  (forall a w, Q a w -> Q' a w) -> ensures R Q m -> ensures R Q' m.
Proof.
  intros HQ Hm w. specialize (Hm w). destruct (m w) as [[a|e] w1]; [|exact Hm].
  destruct Hm as [HR Ha]. split; [exact HR|exact (HQ _ _ Ha)].
Qed.

(** The calls that leave [user_data] and the conversations alone. *)
Ltac framed :=
  let w := fresh "w" in
  intros w; cbv beta iota delta [reply_text reply_voice answer download convert
    of_sum attr fresh_uuid logger_info storage_add storage_get_by_file_id
    storage_delete_by_file_id storage_rename storage_find storage_get_all
    user_data_get ret raise anything];
  repeat match goal with
         | |- context [match ?x with _ => _ end] =>
             lazymatch x with
             | context [match _ with _ => _ end] => fail
             | _ => destruct x
             end
         end;
  cbv beta iota;
  repeat split; solve [apply R_refl | apply R_frame; reflexivity].

Lemma ensures_reply_text (message : Message) (body : string) (pm : option ParseMode) :
  ensures R anything (reply_text message body pm).
Proof. framed. Qed.

Lemma ensures_reply_voice (message : Message) (file : Bytes) :
  ensures R anything (reply_voice message file).
Proof. framed. Qed.

Lemma ensures_answer (q : InlineQuery) (rs : list InlineQueryResultCachedVoice) (t : Z) :
  ensures R anything (answer q rs t).
Proof. framed. Qed.

Lemma ensures_download (f : string) : ensures R anything (download f).
Proof. framed. Qed.

Lemma ensures_convert (b : Bytes) : ensures R anything (convert b).
Proof. framed. Qed.

Lemma ensures_attr {A : Type} (o : option A) : ensures R anything (attr o).
Proof. framed. Qed.

Lemma ensures_fresh_uuid : ensures R anything fresh_uuid.
Proof. framed. Qed.

Lemma ensures_logger_info (q : string) : ensures R anything (logger_info q).
Proof. framed. Qed.

Lemma ensures_storage_add (m : Meme) : ensures R anything (storage_add m).
Proof. framed. Qed.

Lemma ensures_storage_get (f : string) :
  ensures R anything (storage_get_by_file_id f).
Proof. framed. Qed.

Lemma ensures_storage_delete (f : string) (u : Z) :
  ensures R anything (storage_delete_by_file_id f u).
Proof. framed. Qed.

Lemma ensures_storage_rename (i : option Z) (n : string) (u : Z) :
  ensures R anything (storage_rename i n u).
Proof. framed. Qed.

Lemma ensures_storage_find (q : string) : ensures R anything (storage_find q).
Proof. framed. Qed.

Lemma ensures_storage_get_all : ensures R anything storage_get_all.
Proof. framed. Qed.

Lemma ensures_user_data_get (u : Z) (k : string) :
  ensures R anything (user_data_get u k).
Proof. framed. Qed.

Lemma ensures_mapM {A B : Type} (f : A -> M B) (l : list A) :
  (forall a, ensures R anything (f a)) -> ensures R anything (mapM f l).
Proof.
  intros Hf. induction l as [|a l IH]; cbn [mapM].
  - apply ensures_ret. intros; exact I.
  - apply (ensures_bind anything); [apply Hf|]. intros b.
    apply (ensures_bind anything); [exact IH|]. intros bs.
    apply ensures_ret. intros; exact I.
Qed.

Ltac ensure :=
  repeat (intros;
    first [ apply ensures_reply_text | apply ensures_reply_voice
          | apply ensures_answer | apply ensures_download
          | apply ensures_convert | apply ensures_attr
          | apply ensures_fresh_uuid | apply ensures_logger_info
          | apply ensures_storage_add | apply ensures_storage_get
          | apply ensures_storage_delete | apply ensures_storage_rename
          | apply ensures_storage_find | apply ensures_storage_get_all
          | apply ensures_user_data_get | apply ensures_raise
          | apply ensures_mapM
          | apply ensures_ret; intros; first [exact I | reflexivity]
          | apply (ensures_try anything anything)
          | apply (ensures_bind anything)
          | match goal with
            | |- ensures _ _ (match ?x with _ => _ end) => destruct x
            end
          | reflexivity ]).

(** What each handler of [main.py] returns, and that it keeps [R]. *)

Lemma ensures_cmd_cancel (m : Message) :
  ensures R (fun ns _ => ns = Some END) (cmd_cancel m).
Proof. unfold cmd_cancel. ensure. Qed.

Lemma ensures_meme_handler (m : Message) :
  ensures R (fun ns _ => ns = None) (meme_handler m).
Proof. unfold meme_handler. ensure. Qed.

Lemma ensures_name_handler (m : Message) :
  ensures R (fun ns _ => ns = Some END) (name_handler m).
Proof. unfold name_handler. ensure. Qed.

Lemma ensures_cmd_name (m : Message) :
  ensures R (fun ns _ => ns = None) (cmd_name m tt).
Proof. unfold cmd_name, inject_quoted_voice_id. ensure. Qed.

Lemma ensures_cmd_delete (m : Message) :
  ensures R (fun ns _ => ns = None) (cmd_delete m tt).
Proof. unfold cmd_delete, inject_quoted_voice_id. ensure. Qed.

Lemma ensures_cmd_rename (m : Message) (args : list string) :
  ensures R (fun ns _ => ns = None) (cmd_rename m args).
Proof. unfold cmd_rename, inject_quoted_voice_id. ensure. Qed.

Lemma ensures_cmd_fix (m : Message) :
  ensures R (fun ns _ => ns = None) (cmd_fix m tt).
Proof. unfold cmd_fix, inject_quoted_voice_id. ensure. Qed.

Lemma ensures_inlinequery (q : InlineQuery) :
  ensures R (fun ns _ => ns = None) (inlinequery q).
Proof. unfold inlinequery. cbv zeta. ensure. Qed.

(** [audio_handler] writes to the [user_data] of the sender; it keeps [R]
    when that write does, and what it returns is [NAME], with the
    [file_id] pending. *)
Lemma ensures_audio_handler (m : Message) :
  (forall v w,
      R w (set_user_data
             (<[from_user m := <["meme_file_id" := v]>
                                 (default ∅ (user_data w !! from_user m))]>
                (user_data w)) w)) ->
  ensures R (fun ns w' => ns = Some NAME /\ is_Some (pending w' (from_user m)))
          (audio_handler m).
Proof.
  intros Hset. unfold audio_handler.
  apply (ensures_bind anything); [ensure|].
  intros v w. unfold bind, user_data_set, reply_text, ret. cbv beta iota.
  split.
  - eapply R_trans; [apply Hset|]. apply R_frame; reflexivity.
  - split; [reflexivity|]. unfold pending.
    cbn [user_data set_outbox set_user_data].
    rewrite lookup_insert_eq. cbv [from_option Datatypes.id].
    rewrite lookup_insert_eq. eauto.
Qed.

(** Every callback that [main] registers keeps [R], when the write of
    [audio_handler] for the sender of the update does. *)
Lemma handlers_ensure (u : Update) (h : Handler) :
  (forall v w,
      R w (set_user_data
             (<[sender u := <["meme_file_id" := v]>
                              (default ∅ (user_data w !! sender u))]>
                (user_data w)) w)) ->
  In h (conversation_handlers ++ plain_handlers) ->
  ensures R (returns_state u) (handle_update h u).
Proof.
  intros Hset Hin. unfold returns_state.
  cbn [conversation_handlers plain_handlers entry_points states fallbacks
       conv_handler app] in Hin.
  change (NAME =? NAME) with true in Hin. cbn [app] in Hin.
  repeat (destruct Hin as [<-|Hin]); [..|destruct Hin];
    destruct u as [m|q]; cbn [handle_update without_args];
    try (apply ensures_ret; intros; now left).
  - eapply ensures_weaken; [|apply (ensures_audio_handler m Hset)].
    cbv beta. intros ns w' [-> Hp]. right; right. split; [reflexivity|exact Hp].
  - eapply ensures_weaken; [|apply ensures_name_handler]. cbv beta. tauto.
  - eapply ensures_weaken; [|apply ensures_cmd_cancel]. cbv beta. tauto.
  - eapply ensures_weaken; [|apply ensures_meme_handler]. cbv beta. tauto.
  - eapply ensures_weaken; [|apply ensures_cmd_name]. cbv beta. tauto.
  - eapply ensures_weaken; [|apply ensures_cmd_delete]. cbv beta. tauto.
  - eapply ensures_weaken; [|apply ensures_cmd_rename]. cbv beta. tauto.
  - eapply ensures_weaken; [|apply ensures_cmd_fix]. cbv beta. tauto.
  - eapply ensures_weaken; [|apply ensures_inlinequery]. cbv beta. tauto.
Qed.

(** One step of the bot: some world [w1] that [R] relates to the world
    before holds the [user_data] of the world after, and its conversation
    table is that of the world after, up to the new state of the one
    conversation of the update. *)
Lemma step_cases (u : Update) (w : World) :
  (forall v w,
      R w (set_user_data
             (<[sender u := <["meme_file_id" := v]>
                              (default ∅ (user_data w !! sender u))]>
                (user_data w)) w)) ->
  exists w1 ns,
    R w w1 /\ returns_state u ns w1
    /\ user_data (step u w) = user_data w1
    /\ (conversations (step u w) = conversations w1
        \/ exists m, u = message_update m
                     /\ conversations (step u w)
                        = conversations
                            (update_state ns (chat_id m, from_user m) w1)).
Proof.
  intros Hset. unfold step, process_update.
  destruct (dispatch_cases u w) as [E|[(h & Hin & E)|(m & h & -> & Hin & E)]];
    rewrite E; clear E.
  - exists w, None. split; [apply R_refl|]. split; [now left|].
    split; [reflexivity|]. now left.
  - assert (Hh : ensures R (returns_state u) (handle_update h u)).
    { apply handlers_ensure; [exact Hset|]. apply in_or_app. now right. }
    specialize (Hh w). unfold bind, ret.
    destruct (handle_update h u w) as [[ns|e] w1].
    + destruct Hh as [HR HQ]. exists w1, None.
      split; [exact HR|]. split; [now left|]. split; [reflexivity|]. now left.
    + exists w1, None. split; [exact Hh|]. split; [now left|].
      split; [reflexivity|]. now left.
  - assert (Hh : ensures R (returns_state (message_update m))
                         (handle_update h (message_update m))).
    { apply handlers_ensure; [exact Hset|]. apply in_or_app. now left. }
    specialize (Hh w). unfold conversation_handle_update.
    destruct (handle_update h (message_update m) w) as [[ns|e] w1].
    + destruct Hh as [HR HQ]. exists w1, ns.
      split; [exact HR|]. split; [exact HQ|]. split.
      * unfold update_state. destruct ns as [s|]; [|reflexivity].
        now destruct (s =? END).
      * right. exists m. split; reflexivity.
    + exists w1, None. split; [exact Hh|]. split; [now left|].
      split; [reflexivity|]. now left.
Qed.

End Frame.

(** *** The conversation and [user_data] *)

Lemma pending_frame (w w' : World) (user : Z) :
  user_data w' !! user = user_data w !! user -> pending w' user = pending w user.
Proof. unfold pending. now intros ->. Qed.

(** A step keeps the invariant that a conversation under way has a pending
    [file_id]. *)
Lemma step_keeps_invariant (u : Update) (w : World) :
  conversations_have_pending w -> conversations_have_pending (step u w).
Proof.
  intros Hinv.
  destruct (step_cases keeps_pending) with (u := u) (w := w)
    as (w1 & ns & [Hc Hp] & Hret & Hud & Hconv).
  - intros w0. split; [reflexivity|tauto].
  - intros a b c [H1 H2] [H3 H4]. split; [congruence|auto].
  - intros a b Hu Hcs. split; [exact Hcs|]. intros user.
    unfold pending. now rewrite Hu.
  - intros v w0. split; [reflexivity|]. intros user Hsome.
    unfold pending. cbn [user_data set_user_data].
    destruct (decide (sender u = user)) as [<-|Hne].
    + rewrite lookup_insert_eq. cbv [from_option Datatypes.id].
      rewrite lookup_insert_eq. eauto.
    + rewrite lookup_insert_ne by exact Hne. exact Hsome.
  - assert (Hp1 : forall user, pending (step u w) user = pending w1 user).
    { intros user. apply pending_frame. now rewrite Hud. }
    intros chat user state Hlook. rewrite Hp1.
    destruct Hconv as [Hconv|(m & -> & Hconv)].
    + rewrite Hconv, Hc in Hlook. apply Hp. exact (Hinv _ _ _ Hlook).
    + rewrite Hconv in Hlook. unfold update_state in Hlook.
      destruct Hret as [->|[->|[-> Hsome]]].
      * rewrite Hc in Hlook. apply Hp. exact (Hinv _ _ _ Hlook).
      * change (END =? END) with true in Hlook.
        cbn [conversations set_conversations] in Hlook.
        destruct (decide ((chat_id m, from_user m) = (chat, user))) as [Heq|Hne].
        -- rewrite Heq, lookup_delete_eq in Hlook. discriminate.
        -- rewrite lookup_delete_ne in Hlook by exact Hne.
           rewrite Hc in Hlook. apply Hp. exact (Hinv _ _ _ Hlook).
      * change (NAME =? END) with false in Hlook.
        cbn [conversations set_conversations] in Hlook.
        destruct (decide ((chat_id m, from_user m) = (chat, user))) as [Heq|Hne].
        -- injection Heq as _ <-. exact Hsome.
        -- rewrite lookup_insert_ne in Hlook by exact Hne.
           rewrite Hc in Hlook. apply Hp. exact (Hinv _ _ _ Hlook).
Qed.

Lemma run_keeps_invariant (us : list Update) :
  forall w, conversations_have_pending w -> conversations_have_pending (run us w).
Proof.
  induction us as [|u us IH]; intros w Hinv; [exact Hinv|].
  apply (IH (step u w)). now apply step_keeps_invariant.
Qed.

Lemma start_has_invariant (st : SqliteMemeStorage.t) (e : Env) :
  conversations_have_pending (start st e).
Proof. intros chat user state H. cbn in H. rewrite lookup_empty in H. discriminate. Qed.

(** The update of one user leaves the [user_data] and the conversations of
    every other user as they were. *)
Lemma step_other_user (u : Update) (w : World) (user : Z) :
  sender u <> user ->
  user_data (step u w) !! user = user_data w !! user
  /\ forall chat, conversations (step u w) !! (chat, user)
                  = conversations w !! (chat, user).
Proof.
  intros Hne.
  destruct (step_cases (leaves_user user)) with (u := u) (w := w)
    as (w1 & ns & [Hc Hu1] & _ & Hud & Hconv).
  - intros w0. split; reflexivity.
  - intros a b c [H1 H2] [H3 H4]. split; congruence.
  - intros a b Hu Hcs. split; [exact Hcs|now rewrite Hu].
  - intros v w0. split; [reflexivity|]. cbn [user_data set_user_data].
    now rewrite lookup_insert_ne.
  - split; [now rewrite Hud|]. intros chat.
    destruct Hconv as [Hconv|(m & -> & Hconv)]; rewrite Hconv.
    + now rewrite Hc.
    + cbn [sender] in Hne. unfold update_state.
      destruct ns as [s|]; [|now rewrite Hc].
      assert (Hk : (chat_id m, from_user m) <> (chat, user)) by congruence.
      destruct (s =? END); cbn [conversations set_conversations].
      * rewrite lookup_delete_ne by exact Hk. now rewrite Hc.
      * rewrite lookup_insert_ne by exact Hk. now rewrite Hc.
Qed.

Lemma run_other_users (us : list Update) (user : Z) :
  forall w, List.Forall (fun u => sender u <> user) us ->
    user_data (run us w) !! user = user_data w !! user
    /\ forall chat, conversations (run us w) !! (chat, user)
                    = conversations w !! (chat, user).
Proof.
  induction us as [|u us IH]; intros w Hall; [split; reflexivity|].
  inversion Hall as [|? ? Hu Hus]; subst.
  destruct (step_other_user u w user Hu) as [H1 H2].
  destruct (IH (step u w) Hus) as [H3 H4].
  cbn [run fold_left]. fold (run us (step u w)).
  split; [congruence|]. intros chat. rewrite H4. apply H2.
Qed.

(** *** The steps of the add-meme conversation *)


(** A text message in a conversation that waits for the name. *)
Lemma step_text_named (w : World) (m : Message) (t f : string) :
  conversations w !! (chat_id m, from_user m) = Some NAME ->
  text m = Some t ->
  Filters_text m = true ->
  pending w (from_user m) = Some f ->
  step (message_update m) w =
    set_conversations
      (delete (chat_id m, from_user m) (conversations w))
      (set_outbox
         (outbox w ++ [sent_text (chat_id m) meme_added None])
         (set_storage
            (snd (SqliteMemeStorage.add (mkMeme None (strip t) f (from_user m) 0)
                                        (meme_storage w)))
            w)).
Proof.
  intros Hst Ht Hf Hp.
  unfold step, process_update, main. cbn [dispatch].
  unfold conversation_check_update. rewrite Hst.
  change (states conv_handler NAME)
    with [MessageHandler (fun _ m => Filters_text m) name_handler].
  unfold first_match. cbn [List.find check_update]. rewrite Hf.
  unfold conversation_handle_update. cbn [handle_update].
  unfold name_handler. rewrite Ht.
  unfold bind at 1. cbn [attr ret].
  unfold bind at 1. unfold user_data_get. fold (pending w (from_user m)).
  rewrite Hp. reflexivity.
Qed.

(** C10: in every world that a run of updates reaches from start-up, a
    conversation in the state [NAME] has the key [meme_file_id] in the
    [user_data] of its user: the read of [name_handler] returns, and
    [name_handler] as a whole returns the end of the conversation for a
    message that carries text. *)
Theorem name_handler_finds_the_file_id
    (st : SqliteMemeStorage.t) (e : Env) (us : list Update) (message : Message) :
  let w := run us (start st e) in
  conversations w !! (chat_id message, from_user message) = Some NAME ->
  exists f,
    default ∅ (user_data w !! from_user message) !! "meme_file_id" = Some f
    /\ user_data_get (from_user message) "meme_file_id" w = (Ok f, w)
    /\ (forall t, text message = Some t ->
          exists w', name_handler message w = (Ok (Some END), w')).
Proof.
  intros w Hst.
  assert (Hinv : conversations_have_pending w)
    by (apply run_keeps_invariant, start_has_invariant).
  destruct (Hinv _ _ _ Hst) as [f Hf]. exists f.
  split; [exact Hf|]. unfold pending in Hf. split.
  - unfold user_data_get. now rewrite Hf.
  - intros t Ht. unfold name_handler. rewrite Ht.
    unfold bind at 1. cbn [attr ret].
    unfold bind at 1. unfold user_data_get. rewrite Hf.
    eexists. reflexivity.
Qed.


(** *** Known memes and [/cancel] *)

(** C6: a voice message whose [file_id] resolves to a stored meme is
    answered, in every state of the conversation, with one text that carries
    just the stored name, as [meme_handler] formats it (the word Name, a
    colon and the name between double quotes); the conversation handler does
    not take the update, so [audio_handler] is not run, and nothing but the
    outbox changes: neither the conversation table nor [user_data] is
    touched. *)
Theorem known_voice_is_answered_with_its_name
    (w : World) (m : Message) (f : string) (meme : Meme) :
  voice m = Some f ->
  text m = None ->
  SqliteMemeStorage.get_by_file_id f (meme_storage w) = inr meme ->
  let w' := step (message_update m) w in
  w' = set_outbox
         (outbox w ++ [sent_text (chat_id m)
                         ("Name: " +:+ dquote +:+ name meme +:+ dquote) None]) w
  /\ conversation_check_update conv_handler w (message_update m) = None
  /\ conversations w' = conversations w
  /\ user_data w' = user_data w
  /\ meme_storage w' = meme_storage w.
Proof.
  intros Hv Ht Hget w'.
  assert (Hm : is_meme w m = true) by (unfold is_meme; now rewrite Hv, Hget).
  assert (Hnone : conversation_check_update conv_handler w (message_update m) = None).
  { unfold conversation_check_update.
    destruct (conversations w !! (chat_id m, from_user m)) as [state|].
    - cbn [states conv_handler]. unfold first_match.
      assert (Hs : List.find (fun h => check_update h w (message_update m))
                     (if state =? NAME
                      then [MessageHandler (fun _ m => Filters_text m) name_handler]
                      else []) = None).
      { destruct (state =? NAME); [|reflexivity].
        cbn [List.find check_update]. unfold Filters_text. now rewrite Ht. }
      rewrite Hs. cbn [fallbacks conv_handler List.find check_update].
      unfold command_of. rewrite Ht. reflexivity.
    - unfold first_match. cbn [entry_points conv_handler List.find check_update].
      rewrite Hm. reflexivity. }
  assert (E : w' = set_outbox
                     (outbox w ++ [sent_text (chat_id m)
                        ("Name: " +:+ dquote +:+ name meme +:+ dquote) None]) w).
  { subst w'. unfold step, process_update, main. cbn [dispatch].
    rewrite Hnone. cbn [check_update]. rewrite Hm. cbn [handle_update].
    unfold meme_handler. rewrite Hv.
    unfold bind at 1. unfold bind at 1. cbn [attr ret].
    unfold bind at 1. unfold storage_get_by_file_id, of_sum. rewrite Hget.
    reflexivity. }
  split; [exact E|]. split; [exact Hnone|].
  rewrite E. repeat split; reflexivity.
Qed.


(** ** More about the router *)

(** *** The effects of the handlers, one call at a time *)

Section Effects.

(** [R] is a preorder on worlds that every call of the handlers respects:
    sending something that [ok] allows, moving the platform on, logging a
    record that [okl] allows, the three mutations of the store, the write to
    [user_data] and the updates of the conversation table. *)
Variable ok : Sent -> Prop.
Variable okl : LogRecord -> Prop.
Variable R : World -> World -> Prop.
Hypothesis E_refl : forall w, R w w.
Hypothesis E_trans : forall w1 w2 w3, R w1 w2 -> R w2 w3 -> R w1 w3.
Hypothesis E_outbox :
  forall w x, ok x -> R w (set_outbox (outbox w ++ [x]) w).
Hypothesis E_env : forall w e, R w (set_env e w).
Hypothesis E_logged :
  forall w x, okl x -> R w (set_logged (logged w ++ [x]) w).
Hypothesis E_add :
  forall w m, R w (set_storage (snd (SqliteMemeStorage.add m (meme_storage w))) w).
Hypothesis E_delete :
  forall w f requester st',
    SqliteMemeStorage.delete_by_file_id f requester (meme_storage w) = inr st' ->
    R w (set_storage st' w).
Hypothesis E_rename :
  forall w i n requester st',
    SqliteMemeStorage.rename i n requester (meme_storage w) = inr st' ->
    R w (set_storage st' w).
Hypothesis E_user_data :
  forall w user v,
    R w (set_user_data
           (<[user := <["meme_file_id" := v]> (default ∅ (user_data w !! user))]>
              (user_data w)) w).
Hypothesis E_conversations : forall w cs, R w (set_conversations cs w).

Lemma effect_reply_text (message : Message) (body : string) (pm : option ParseMode) :
  ok (sent_text (chat_id message) body pm) ->
  ensures R anything (reply_text message body pm).
Proof. intros Hok w. cbn. split; [now apply E_outbox|exact I]. Qed.

Lemma effect_reply_voice (message : Message) (file : Bytes) :
  (forall f, ok (sent_voice (chat_id message) file f)) ->
  ensures R anything (reply_voice message file).
Proof.
  intros Hok w. unfold reply_voice.
  destruct (send_voice (chat_id message) file (env w)) as [[x|f] e'].
  - apply E_env.
  - split; [|exact I]. eapply E_trans; [apply (E_env w e')|].
    apply (E_outbox (set_env e' w)). apply Hok.
Qed.

Lemma effect_answer (q : InlineQuery) (rs : list InlineQueryResultCachedVoice) (t : Z) :
  ok (sent_answer (query_id q) rs t) -> ensures R anything (answer q rs t).
Proof. intros Hok w. cbn. split; [now apply E_outbox|exact I]. Qed.

Lemma effect_download (f : string) : ensures R anything (download f).
Proof.
  intros w. unfold download.
  destruct (download_file f (env w)) as [[x|b] e']; [|split; [|exact I]];
    apply E_env.
Qed.

Lemma effect_convert (b : Bytes) : ensures R anything (convert b).
Proof.
  intros w. unfold convert, of_sum.
  destruct (convert_to_ogg b); cbn; [|split; [|exact I]]; apply E_refl.
Qed.

Lemma effect_attr {A : Type} (o : option A) : ensures R anything (attr o).
Proof. intros w. destruct o; cbn; [split; [|exact I]|]; apply E_refl. Qed.

Lemma effect_fresh_uuid : ensures R anything fresh_uuid.
Proof.
  intros w. unfold fresh_uuid. destruct (uuid4 (env w)) as [u e'].
  split; [apply E_env|exact I].
Qed.

Lemma effect_logger_info (q : string) :
  okl (log_info_inline_query q) -> ensures R anything (logger_info q).
Proof. intros Hq w. cbn. split; [now apply E_logged|exact I]. Qed.

Lemma effect_storage_add (m : Meme) : ensures R anything (storage_add m).
Proof. intros w. cbn. split; [apply E_add|exact I]. Qed.

Lemma effect_storage_get (f : string) :
  ensures R anything (storage_get_by_file_id f).
Proof.
  intros w. unfold storage_get_by_file_id, of_sum.
  destruct (SqliteMemeStorage.get_by_file_id f (meme_storage w));
    cbn; [|split; [|exact I]]; apply E_refl.
Qed.

Lemma effect_storage_delete (f : string) (u : Z) :
  ensures R anything (storage_delete_by_file_id f u).
Proof.
  intros w. unfold storage_delete_by_file_id.
  destruct (SqliteMemeStorage.delete_by_file_id f u (meme_storage w)) eqn:E.
  - apply E_refl.
  - split; [exact (E_delete _ _ _ _ E)|exact I].
Qed.

Lemma effect_storage_rename (i : option Z) (n : string) (u : Z) :
  ensures R anything (storage_rename i n u).
Proof.
  intros w. unfold storage_rename.
  destruct (SqliteMemeStorage.rename i n u (meme_storage w)) eqn:E.
  - apply E_refl.
  - split; [exact (E_rename _ _ _ _ _ E)|exact I].
Qed.

Lemma effect_storage_find (q : string) : ensures R anything (storage_find q).
Proof. intros w. cbn. split; [apply E_refl|exact I]. Qed.

Lemma effect_storage_get_all : ensures R anything storage_get_all.
Proof. intros w. cbn. split; [apply E_refl|exact I]. Qed.

Lemma effect_user_data_set (u : Z) (v : string) :
  ensures R anything (user_data_set u "meme_file_id" v).
Proof. intros w. cbn. split; [apply E_user_data|exact I]. Qed.

Lemma effect_user_data_get (u : Z) (k : string) :
  ensures R anything (user_data_get u k).
Proof.
  intros w. unfold user_data_get.
  destruct (default ∅ (user_data w !! u) !! k); [split; [|exact I]|]; apply E_refl.
Qed.

Ltac effects Hok :=
  repeat (intros;
    first [ exact I
          | apply effect_reply_text; apply Hok; reflexivity
          | apply effect_reply_voice; intros; apply Hok; reflexivity
          | apply effect_download | apply effect_convert | apply effect_attr
          | apply effect_fresh_uuid
          | apply effect_storage_add | apply effect_storage_get
          | apply effect_storage_delete | apply effect_storage_rename
          | apply effect_storage_find | apply effect_storage_get_all
          | apply effect_user_data_set | apply effect_user_data_get
          | apply (ensures_raise R E_refl)
          | apply (ensures_mapM R E_refl E_trans)
          | apply (ensures_ret R E_refl); intros; exact I
          | apply (ensures_try R E_trans anything anything)
          | apply (ensures_bind R E_trans anything)
          | match goal with
            | |- ensures _ _ (match ?x with _ => _ end) => destruct x
            end ]).

(** Every callback of [main], on an update whose answers [ok] allows. *)
Lemma handlers_effect (u : Update) (h : Handler) :
  (forall x, addressed u x -> ok x) ->
  (forall q, okl (log_info_inline_query q)) ->
  In h (conversation_handlers ++ plain_handlers) ->
  ensures R anything (handle_update h u).
Proof.
  intros Hok Hinfo Hin.
  cbn [conversation_handlers plain_handlers entry_points states fallbacks
       conv_handler app] in Hin.
  change (NAME =? NAME) with true in Hin. cbn [app] in Hin.
  repeat (destruct Hin as [<-|Hin]); [..|destruct Hin];
    destruct u as [m|q]; cbn [handle_update]; unfold without_args; cbv beta;
    try (apply (ensures_ret R E_refl); intros; exact I).
  - unfold audio_handler. effects Hok.
  - unfold name_handler. effects Hok.
  - unfold cmd_cancel. effects Hok.
  - unfold meme_handler. effects Hok.
  - unfold cmd_name, inject_quoted_voice_id. effects Hok.
  - unfold cmd_delete, inject_quoted_voice_id. effects Hok.
  - unfold cmd_rename, inject_quoted_voice_id. effects Hok.
  - unfold cmd_fix, inject_quoted_voice_id. effects Hok.
  - unfold inlinequery. cbv zeta.
    apply (ensures_bind R E_trans anything); [now apply effect_logger_info|].
    effects Hok. apply effect_answer. apply Hok. split; reflexivity.
Qed.

(** The dispatcher respects [R], whether the handler returns or raises. *)
Lemma dispatch_effect (u : Update) :
  (forall x, addressed u x -> ok x) ->
  (forall q, okl (log_info_inline_query q)) ->
  ensures R anything (dispatch main u).
Proof.
  intros Hok Hinfo w.
  destruct (dispatch_cases u w) as [E|[(h & Hin & E)|(m & h & -> & Hin & E)]];
    rewrite E; clear E.
  - split; [apply E_refl|exact I].
  - assert (Hh : ensures R anything (handle_update h u)).
    { apply handlers_effect; [exact Hok|exact Hinfo|]. apply in_or_app. now right. }
    specialize (Hh w). unfold bind, ret.
    destruct (handle_update h u w) as [[ns|e] w1]; [|exact Hh].
    split; [exact (proj1 Hh)|exact I].
  - assert (Hh : ensures R anything (handle_update h (message_update m))).
    { apply handlers_effect; [exact Hok|exact Hinfo|]. apply in_or_app. now left. }
    specialize (Hh w). unfold conversation_handle_update.
    destruct (handle_update h (message_update m) w) as [[ns|e] w1]; [|exact Hh].
    split; [|exact I]. eapply E_trans; [exact (proj1 Hh)|]. unfold update_state.
    destruct ns as [s|]; [|apply E_refl].
    destruct (s =? END); apply E_conversations.
Qed.

(** One step of the bot respects [R], when the warning of the error
    boundary does. *)
Lemma step_effect (u : Update) (w : World) :
  (forall x, addressed u x -> ok x) ->
  (forall q, okl (log_info_inline_query q)) ->
  (forall e, okl (log_warning u e)) ->
  R w (step u w).
Proof.
  intros Hok Hinfo Hwarn. unfold step, process_update.
  pose proof (dispatch_effect u Hok Hinfo w) as H.
  destruct (dispatch main u w) as [[[]|e] w1]; [exact (proj1 H)|].
  eapply E_trans; [exact H|]. apply E_logged. apply Hwarn.
Qed.

End Effects.

(** *** What a step sends *)

(** X1: whatever a step sends, it appends to the outbox, and every item it
    appends answers the update: a text or a voice goes to the chat of the
    message, an answer goes to the inline query, with cache time 0.  The bot
    never writes to another chat and never takes anything back. *)
Theorem step_answers_where_it_was_asked (u : Update) (w : World) :
  exists sent,
    outbox (step u w) = (outbox w ++ sent)%list
    /\ List.Forall (addressed u) sent.
Proof.
  apply (step_effect (addressed u) (fun _ => True)
           (fun w w' => exists sent, outbox w' = (outbox w ++ sent)%list
                                     /\ List.Forall (addressed u) sent)).
  - intros w0. exists []. split; [now rewrite app_nil_r|constructor].
  - intros w1 w2 w3 (s1 & E1 & F1) (s2 & E2 & F2). exists (s1 ++ s2)%list.
    split; [rewrite E2, E1; now rewrite <- app_assoc|].
    apply List.Forall_app. now split.
  - intros w0 x Hx. exists [x]. split; [reflexivity|]. now constructor.
  - intros w0 e. exists []. split; [cbn; now rewrite app_nil_r|constructor].
  - intros w0 x _. exists []. split; [cbn; now rewrite app_nil_r|constructor].
  - intros w0 m. exists []. split; [cbn; now rewrite app_nil_r|constructor].
  - intros w0 f r st' _. exists []. split; [cbn; now rewrite app_nil_r|constructor].
  - intros w0 i n r st' _. exists []. split; [cbn; now rewrite app_nil_r|constructor].
  - intros w0 user v. exists []. split; [cbn; now rewrite app_nil_r|constructor].
  - intros w0 cs. exists []. split; [cbn; now rewrite app_nil_r|constructor].
  - trivial.
  - trivial.
  - trivial.
Qed.

(** *** The store over a run *)

Lemma replay_app (a b : list StoreOp) (st : SqliteMemeStorage.t) :
  fst (replay (a ++ b) st) = fst (replay b (fst (replay a st))).
Proof.
  revert st. induction a as [|o a IH]; intros st; [reflexivity|].
  cbn [app replay]. destruct (apply_op o st) as [st1 i1].
  specialize (IH st1).
  destruct (replay (a ++ b) st1) as [st2 i2].
  destruct (replay a st1) as [st3 i3]. exact IH.
Qed.

(** A step changes the store through [add], [delete_by_file_id] and
    [rename] only. *)
Lemma step_store_history (u : Update) (w : World) :
  exists ops, meme_storage (step u w) = fst (replay ops (meme_storage w)).
Proof.
  apply (step_effect (fun _ => True) (fun _ => True)
           (fun w w' => exists ops,
                meme_storage w' = fst (replay ops (meme_storage w)))).
  - intros w0. now exists [].
  - intros w1 w2 w3 (o1 & E1) (o2 & E2). exists (o1 ++ o2)%list.
    now rewrite replay_app, <- E1.
  - intros w0 x _. now exists [].
  - intros w0 e. now exists [].
  - intros w0 x _. now exists [].
  - intros w0 m. now exists [op_add m].
  - intros w0 f r st' E. exists [op_delete_by_file_id f r]. cbn. now rewrite E.
  - intros w0 i n r st' E. exists [op_rename i n r]. cbn. now rewrite E.
  - intros w0 user v. now exists [].
  - intros w0 cs. now exists [].
  - trivial.
  - trivial.
  - trivial.
Qed.

Lemma run_store_history (us : list Update) :
  forall w, exists ops,
    meme_storage (run us w) = fst (replay ops (meme_storage w)).
Proof.
  induction us as [|u us IH]; intros w; [now exists []|].
  destruct (step_store_history u w) as (o1 & E1).
  destruct (IH (step u w)) as (o2 & E2).
  exists (o1 ++ o2)%list. cbn [run fold_left]. fold (run us (step u w)).
  now rewrite replay_app, <- E1.
Qed.

(** X2: a run of the bot keeps the ids of the store in order: when the ids
    of the table are unique and at most the counter at the start, they are
    so after any run of updates, and the counter has not gone down, so that
    no id is issued twice. *)
Theorem run_keeps_ids_unique (us : list Update) (w : World) :
  ids_bounded (meme_storage w) ->
  ids_unique (meme_storage w) ->
  ids_bounded (meme_storage (run us w))
  /\ ids_unique (meme_storage (run us w))
  /\ SqliteMemeStorage.last_id (meme_storage w)
     <= SqliteMemeStorage.last_id (meme_storage (run us w)).
Proof.
  intros Hb Hu. destruct (run_store_history us w) as (ops & ->).
  destruct (replay_bounds ops _ Hb) as (Hb' & Hle & _).
  split; [exact Hb'|]. split; [|exact Hle].
  now apply replay_ids_unique.
Qed.

Lemma apply_op_origin (o : StoreOp) (st : SqliteMemeStorage.t) (r' : Meme) :
  In r' (SqliteMemeStorage.rows (fst (apply_op o st))) ->
  (exists r, In r (SqliteMemeStorage.rows st) /\ same_but_name r r')
  \/ (exists i, id r' = Some i /\ SqliteMemeStorage.last_id st < i).
Proof.
  destruct o as [m|f requester|i n requester]; simpl.
  - intros Hin. apply in_app_or in Hin as [Hin|[<-|[]]].
    + left. exists r'. repeat split; trivial.
    + right. eexists. split; [reflexivity|lia].
  - intros Hin. left. exists r'. split; [|repeat split; trivial].
    unfold SqliteMemeStorage.delete_by_file_id in Hin.
    destruct (SqliteMemeStorage.get_by_file_id f st) as [|m]; [exact Hin|].
    destruct (owner_id m =? requester); [|exact Hin].
    simpl in Hin. now apply filter_In in Hin.
  - intros Hin. left.
    unfold SqliteMemeStorage.rename in Hin.
    destruct (List.find _ _) as [m|];
      [|exists r'; split; [exact Hin|repeat split; trivial]].
    destruct (owner_id m =? requester);
      [|exists r'; split; [exact Hin|repeat split; trivial]].
    simpl in Hin. apply in_map_iff in Hin as (r & Hr & Hin).
    exists r. split; [exact Hin|].
    destruct (bool_decide _); subst r'; repeat split; trivial.
Qed.

Lemma replay_origin (ops : list StoreOp) :
  forall st r',
    ids_bounded st ->
    In r' (SqliteMemeStorage.rows (fst (replay ops st))) ->
    (exists r, In r (SqliteMemeStorage.rows st) /\ same_but_name r r')
    \/ (exists i, id r' = Some i /\ SqliteMemeStorage.last_id st < i).
Proof.
  induction ops as [|o rest IH]; intros st r' Hb; simpl.
  - intros Hin. left. exists r'. repeat split; trivial.
  - pose proof (apply_op_origin o st) as Ho.
    destruct (apply_op_bounds o st Hb) as (Hb1 & Hle & _).
    destruct (apply_op o st) as [st1 i1]. simpl in *.
    specialize (IH st1 r' Hb1).
    destruct (replay rest st1) as [st2 i2]. simpl in *.
    intros Hin. destruct (IH Hin) as [(r1 & Hin1 & S1)|(i & Hi & Hlt)].
    + destruct (Ho r1 Hin1) as [(r & Hr & S)|(i & Hi & Hlt)].
      * left. exists r. split; [exact Hr|].
        destruct S as (A & B & C & D), S1 as (A1 & B1 & C1 & D1).
        repeat split; congruence.
      * right. exists i. split; [|exact Hlt].
        destruct S1 as (A1 & _). congruence.
    + right. exists i. split; [exact Hi|lia].
Qed.

(** X3: over a run of the bot a record keeps its [file_id], its owner and
    its [times_used]: every record of the store after the run whose id was
    already issued before it is a record of the store before, with the same
    id, up to its name. *)
Theorem run_never_changes_the_owner
    (us : list Update) (w : World) (r' : Meme) (i : Z) :
  ids_bounded (meme_storage w) ->
  In r' (SqliteMemeStorage.rows (meme_storage (run us w))) ->
  id r' = Some i ->
  i <= SqliteMemeStorage.last_id (meme_storage w) ->
  exists r, In r (SqliteMemeStorage.rows (meme_storage w))
            /\ id r = Some i /\ file_id r = file_id r'
            /\ owner_id r = owner_id r' /\ times_used r = times_used r'.
Proof.
  intros Hb Hin Hid Hle. destruct (run_store_history us w) as (ops & E).
  rewrite E in Hin.
  destruct (replay_origin ops _ r' Hb Hin) as [(r & Hr & A & B & C & D)|(j & Hj & Hlt)].
  - exists r. split; [exact Hr|]. repeat split; congruence.
  - rewrite Hid in Hj. injection Hj as <-. lia.
Qed.

(** *** The commands, one by one *)








(** *** The arguments of a command *)




Lemma is_empty_snoc (s : string) (c : ascii) :
  is_empty (s +:+ String c EmptyString) = false.
Proof. destruct s; reflexivity. Qed.







(** *** Uploads that have to be converted *)

(** An audio file or an audio document, in an idle conversation, goes to
    [audio_handler]. *)
Lemma step_audio_idle (w : World) (m : Message) :
  conversations w !! (chat_id m, from_user m) = None ->
  voice m = None ->
  Filters_audio m || is_audio_document m = true ->
  step (message_update m) w =
    match audio_handler m w with
    | (Ok new_state, w') => update_state new_state (chat_id m, from_user m) w'
    | (Raise e, w') => error_handler (message_update m) e w'
    end.
Proof.
  intros Hidle Hv Hf.
  unfold step, process_update, main. cbn [dispatch].
  unfold conversation_check_update. rewrite Hidle.
  unfold first_match. cbn [entry_points conv_handler List.find check_update].
  assert (Hm : is_meme w m = false) by (unfold is_meme; now rewrite Hv).
  rewrite Hm. unfold Filters_voice at 1. rewrite Hv.
  rewrite (bool_decide_eq_false_2 (is_Some None)) by (intros [? [=]]).
  rewrite orb_false_r, Hf. cbn [negb andb fmap option_fmap option_map].
  unfold conversation_handle_update. cbn [handle_update].
  now destruct (audio_handler m w) as [[?|?] ?].
Qed.

Lemma audio_source_filter (m : Message) (a : string) :
  audio_source m = Some a ->
  audio m = Some a
  \/ (audio m = None /\ exists d, document m = Some d /\ a = doc_file_id d).
Proof.
  unfold audio_source. destruct (audio m) as [a'|].
  - intros [= ->]. now left.
  - destruct (document m) as [d|]; [|discriminate].
    intros [= <-]. right. split; [reflexivity|]. now exists d.
Qed.

(** X9: an audio file or an audio document, sent in an idle conversation,
    is announced as being converted, fetched (the audio if the message has
    one, the document otherwise), converted and sent back as a voice; the
    [file_id] that the platform issues for that voice is the one kept
    pending, the name is asked for and the conversation waits for it.  The
    store is not touched. *)
Theorem audio_upload_is_converted
    (w : World) (m : Message) (a : string) (b b' : Bytes) (e1 e2 : Env)
    (nf : string) :
  conversations w !! (chat_id m, from_user m) = None ->
  voice m = None ->
  Filters_audio m || is_audio_document m = true ->
  audio_source m = Some a ->
  download_file a (env w) = (inr b, e1) ->
  convert_to_ogg b = inr b' ->
  send_voice (chat_id m) b' e1 = (inr nf, e2) ->
  let w' := step (message_update m) w in
  conversations w' !! (chat_id m, from_user m) = Some NAME
  /\ pending w' (from_user m) = Some nf
  /\ outbox w' = (outbox w ++ [ sent_text (chat_id m) converting None;
                                sent_voice (chat_id m) b' nf;
                                sent_text (chat_id m) ask_for_name None ])%list
  /\ meme_storage w' = meme_storage w
  /\ env w' = e2.
Proof.
  intros Hidle Hv Hf Ha Hd Hc Hs w'.
  assert (E : w' = set_conversations
                     (<[(chat_id m, from_user m) := NAME]> (conversations w))
                     (set_outbox
                        (((outbox w ++ [sent_text (chat_id m) converting None])
                          ++ [sent_voice (chat_id m) b' nf])
                         ++ [sent_text (chat_id m) ask_for_name None])
                        (set_user_data
                           (<[from_user m := <["meme_file_id" := nf]>
                                (default ∅ (user_data w !! from_user m))]>
                              (user_data w))
                           (set_env e2 w)))).
  { subst w'. rewrite (step_audio_idle w m Hidle Hv Hf).
    unfold audio_handler. rewrite Hv. fold (audio_source m). rewrite Ha.
    unfold bind at 1. unfold bind at 1. unfold reply_text at 1.
    unfold bind at 1. cbn [attr ret].
    unfold bind at 1. unfold download. cbn [env set_outbox]. rewrite Hd.
    unfold bind at 1. unfold convert, of_sum. rewrite Hc. cbn [ret].
    unfold reply_voice. cbn [env set_env]. rewrite Hs.
    reflexivity. }
  rewrite E. cbn [conversations set_conversations outbox set_outbox meme_storage
                  set_user_data set_env env].
  split; [apply lookup_insert_eq|]. split.
  { unfold pending. cbn [user_data set_conversations set_outbox set_user_data].
    rewrite lookup_insert_eq. cbv [from_option Datatypes.id].
    apply lookup_insert_eq. }
  split; [now rewrite <- !app_assoc|]. split; reflexivity.
Qed.

(** X10: when the download, the conversion or the upload of such a message
    fails, the sender has only been told that the file is being converted:
    nothing is kept pending, the conversation stays idle, the store is as it
    was and the error is logged, once. *)
Theorem audio_upload_failure_leaves_no_trace
    (w : World) (m : Message) (a : string) (e : Exn) :
  conversations w !! (chat_id m, from_user m) = None ->
  voice m = None ->
  Filters_audio m || is_audio_document m = true ->
  audio_source m = Some a ->
  reupload_fails w (chat_id m) a e ->
  let w' := step (message_update m) w in
  conversations w' = conversations w
  /\ user_data w' = user_data w
  /\ meme_storage w' = meme_storage w
  /\ outbox w' = (outbox w ++ [sent_text (chat_id m) converting None])%list
  /\ logged w' = (logged w ++ [log_warning (message_update m) e])%list.
Proof.
  intros Hidle Hv Hf Ha Hfail w'. subst w'.
  assert (Hrun : exists w1,
             audio_handler m w = (Raise e, w1)
             /\ conversations w1 = conversations w
             /\ user_data w1 = user_data w
             /\ meme_storage w1 = meme_storage w
             /\ outbox w1 = (outbox w ++ [sent_text (chat_id m) converting None])%list
             /\ logged w1 = logged w).
  { unfold audio_handler. rewrite Hv. fold (audio_source m). rewrite Ha.
    cbv [bind reply_text attr ret download convert of_sum reply_voice].
    cbn [env set_outbox set_env].
    destruct Hfail as [(e1 & Hd)|[(b & e1 & Hd & Hc)|(b & e1 & b' & e2 & Hd & Hc & Hs)]];
      rewrite Hd; [|rewrite Hc|rewrite Hc; cbn [env set_outbox set_env]; rewrite Hs];
      eexists; repeat split; reflexivity. }
  destruct Hrun as (w1 & Hrun & Hc1 & Hu1 & Hs1 & Ho1 & Hl1).
  rewrite (step_audio_idle w m Hidle Hv Hf), Hrun.
  cbn [error_handler conversations user_data meme_storage outbox logged set_logged].
  rewrite Hl1. repeat split; assumption.
Qed.

(** *** Commands and the conversation *)





(** A voice that is not a meme, in a conversation under way, is taken by no
    handler. *)
Lemma step_voice_waiting (w : World) (m : Message) (f : string) (state : Z) :
  conversations w !! (chat_id m, from_user m) = Some state ->
  voice m = Some f ->
  text m = None ->
  is_meme w m = false ->
  step (message_update m) w = w.
Proof.
  intros Hst Hv Ht Hm.
  unfold step, process_update, main. cbn [dispatch].
  unfold conversation_check_update. rewrite Hst.
  assert (Hs : first_match (states conv_handler state) w (message_update m) = None).
  { cbn [states conv_handler]. destruct (state =? NAME); [|reflexivity].
    unfold first_match. cbn [List.find check_update].
    unfold Filters_text. now rewrite Ht. }
  rewrite Hs. unfold first_match.
  cbn [fallbacks conv_handler List.find check_update].
  unfold command_of. rewrite Ht. cbn [fmap option_fmap option_map].
  rewrite Hm. reflexivity.
Qed.

(** X12: while a conversation waits for a name, a further voice message
    that is not a known meme is taken by no handler: nothing is sent, the
    [file_id] kept pending stays the first one and the world is exactly as
    it was. *)
Theorem voice_while_waiting_is_ignored
    (w : World) (m : Message) (f : string) :
  conversations w !! (chat_id m, from_user m) = Some NAME ->
  voice m = Some f ->
  text m = None ->
  is_meme w m = false ->
  step (message_update m) w = w
  /\ pending (step (message_update m) w) (from_user m) = pending w (from_user m).
Proof.
  intros Hst Hv Ht Hm.
  rewrite (step_voice_waiting w m f NAME Hst Hv Ht Hm). now split.
Qed.




(** *** Names *)

Lemma lstrip_all_space (t : string) : all_space t = true -> lstrip t = EmptyString.
Proof.
  induction t as [|c t IH]; [reflexivity|]. cbn [all_space lstrip].
  intros H. apply andb_true_iff in H as [Hc Ht]. rewrite Hc. now apply IH.
Qed.

Lemma all_space_is_text (m : Message) (t : string) :
  text m = Some t -> is_empty t = false -> all_space t = true ->
  Filters_text m = true.
Proof.
  intros Ht Hne Hsp. unfold Filters_text. rewrite Ht, Hne.
  destruct t as [|c t]; [discriminate|]. cbn [all_space] in Hsp.
  apply andb_true_iff in Hsp as [Hc _]. cbn [startswith negb andb].
  destruct (Ascii.eqb_spec "/"%char c) as [<-|]; [discriminate|reflexivity].
Qed.

(** X14: the name is not checked: a text of whitespace only, sent while the
    conversation waits for the name, adds a meme whose name is empty and
    ends the conversation like any other name. *)
Theorem blank_name_is_stored
    (w : World) (m : Message) (t f : string) :
  conversations w !! (chat_id m, from_user m) = Some NAME ->
  text m = Some t ->
  is_empty t = false ->
  all_space t = true ->
  pending w (from_user m) = Some f ->
  let w' := step (message_update m) w in
  meme_storage w'
  = snd (SqliteMemeStorage.add (mkMeme None EmptyString f (from_user m) 0)
                               (meme_storage w))
  /\ In (mkMeme (Some (SqliteMemeStorage.last_id (meme_storage w) + 1))
                EmptyString f (from_user m) 0)
        (SqliteMemeStorage.rows (meme_storage w'))
  /\ conversations w' !! (chat_id m, from_user m) = None.
Proof.
  intros Hst Ht Hne Hsp Hp w'. subst w'.
  rewrite (step_text_named w m t f Hst Ht (all_space_is_text m t Ht Hne Hsp) Hp).
  unfold strip. rewrite (lstrip_all_space t Hsp).
  cbn [rstrip meme_storage set_conversations set_outbox set_storage conversations].
  split; [reflexivity|]. split.
  - cbn. apply in_or_app. right. now left.
  - apply lookup_delete_eq.
Qed.

(** *** Two conversations at once *)



(** *** Where errors can come from *)













(** *** Operations one after the other *)








(** X22: what one user sends does not reach the others: over a run of
    updates none of which comes from a given user, the [user_data] of that
    user, and with it the [file_id] kept pending, and the state of each of
    their conversations are as they were. *)
Theorem other_users_are_untouched (us : list Update) (w : World) (user : Z) :
  List.Forall (fun u => sender u <> user) us ->
  user_data (run us w) !! user = user_data w !! user
  /\ pending (run us w) user = pending w user
  /\ forall chat, conversations (run us w) !! (chat, user)
                  = conversations w !! (chat, user).
Proof.
  intros Hall. destruct (run_other_users us user w Hall) as [Hud Hcs].
  split; [exact Hud|]. split; [now apply pending_frame|exact Hcs].
Qed.

(** X23: the conversation has one state besides idle: in every world that
    a run of updates reaches from start-up, a conversation under way waits
    for the name. *)
Theorem conversations_only_wait_for_a_name
    (st : SqliteMemeStorage.t) (e : Env) (us : list Update)
    (key : Z * Z) (state : Z) :
  conversations (run us (start st e)) !! key = Some state ->
  state = NAME.
Proof.
  assert (Hstep : forall u w,
             (forall k s, conversations w !! k = Some s -> s = NAME) ->
             forall k s, conversations (step u w) !! k = Some s -> s = NAME).
  { intros u w Hinv k s.
    destruct (step_cases (fun w w' => conversations w' = conversations w))
      with (u := u) (w := w) as (w1 & ns & Hc & Hret & _ & Hconv).
    - reflexivity.
    - intros a b c H1 H2. congruence.
    - intros a b _ H. exact H.
    - reflexivity.
    - destruct Hconv as [->|(m & -> & ->)]; [rewrite Hc; apply Hinv|].
      unfold update_state. destruct Hret as [->|[->|[-> _]]].
      + rewrite Hc. apply Hinv.
      + change (END =? END) with true. cbn [conversations set_conversations].
        destruct (decide ((chat_id m, from_user m) = k)) as [<-|Hne].
        * rewrite lookup_delete_eq. discriminate.
        * rewrite lookup_delete_ne by exact Hne. rewrite Hc. apply Hinv.
      + change (NAME =? END) with false. cbn [conversations set_conversations].
        destruct (decide ((chat_id m, from_user m) = k)) as [<-|Hne].
        * rewrite lookup_insert_eq. now intros [= <-].
        * rewrite lookup_insert_ne by exact Hne. rewrite Hc. apply Hinv. }
  assert (Hrun : forall us w,
             (forall k s, conversations w !! k = Some s -> s = NAME) ->
             forall k s, conversations (run us w) !! k = Some s -> s = NAME).
  { clear us. induction us as [|u us IH]; intros w Hinv; [exact Hinv|].
    cbn [run fold_left]. fold (run us (step u w)). apply IH. now apply Hstep. }
  apply Hrun. intros k s H. cbn in H. rewrite lookup_empty in H. discriminate.
Qed.

End Properties.

(** * The theorems at the scenarios of section 8 *)







(** After the voice "BBB" of user 7, the text of user 7 finds it pending. *)
Lemma name_handler_finds_the_file_id_witness :
  let w := @run calm [message_update (voice_message 5 7 "BBB")] oof_world in
  @user_data_get calm 7 "meme_file_id" w = (Ok "BBB", w).
Proof.
  destruct (@name_handler_finds_the_file_id calm oof_store 0%nat
              [message_update (voice_message 5 7 "BBB")] (text_message 5 7 "x"))
    as (f & Hf & Hget & _).
  - reflexivity.
  - cbv zeta. replace "BBB" with f at 2; [exact Hget|].
    vm_compute in Hf. congruence.
Defined.

(** Someone sends the voice of the meme "oof". *)
Lemma known_voice_is_answered_with_its_name_witness :
  outbox (step (message_update (voice_message 5 7 "AAA")) oof_world)
  = [sent_text 5 ("Name: " +:+ dquote +:+ "oof" +:+ dquote) None].
Proof.
  destruct (@known_voice_is_answered_with_its_name calm oof_world
              (voice_message 5 7 "AAA") "AAA" oof)
    as (E & _).
  - reflexivity.
  - reflexivity.
  - reflexivity.
  - rewrite E. reflexivity.
Defined.


(** * Where the code departs from the specification *)


(** The [file_id] that [/cancel] left behind is used: user 7 is asked for a
    name in chat 5 and in chat 6, cancels in chat 6, and the name sent in
    chat 5 goes to the voice of chat 6. *)
Example canceled_file_id_is_named :
  let w := @run calm [ message_update (voice_message 5 7 "BBB");
                       message_update (voice_message 6 7 "CCC");
                       message_update (text_message 6 7 "/cancel");
                       message_update (text_message 5 7 "horn") ] oof_world in
  SqliteMemeStorage.rows (meme_storage w)
  = [oof; mkMeme (Some 2) "horn" "CCC" 7 0].
Proof. vm_compute. reflexivity. Qed.

(** * The further properties at concrete updates *)

Lemma oof_store_ids_bounded : ids_bounded oof_store.
Proof.
  exact (proj1 (replay_bounds [op_add (Meme_default "oof" "AAA" 1)]
                  SqliteMemeStorage.empty ids_bounded_empty)).
Qed.


Lemma run_keeps_ids_unique_witness :
  ids_unique
    (meme_storage (@run calm [ message_update (voice_message 5 7 "BBB");
                               message_update (text_message 5 7 "horn") ]
                             oof_world)).
Proof.
  destruct (@run_keeps_ids_unique calm
              [ message_update (voice_message 5 7 "BBB");
                message_update (text_message 5 7 "horn") ] oof_world)
    as (_ & H & _).
  - exact oof_store_ids_bounded.
  - exact (store_after_ids_unique [op_add (Meme_default "oof" "AAA" 1)]).
  - exact H.
Defined.

Lemma run_never_changes_the_owner_witness :
  exists r, In r (SqliteMemeStorage.rows oof_store)
            /\ id r = Some 1 /\ file_id r = "AAA" /\ owner_id r = 1
            /\ times_used r = 0.
Proof.
  apply (@run_never_changes_the_owner calm
           [message_update (quoting 5 1 "/rename new name" "AAA")] oof_world
           (mkMeme (Some 1) "new name" "AAA" 1 0) 1).
  - exact oof_store_ids_bounded.
  - vm_compute. left. reflexivity.
  - reflexivity.
  - vm_compute. discriminate.
Defined.






Lemma audio_upload_is_converted_witness :
  let w' := step (message_update (audio_message 5 7 "song")) oof_world in
  conversations w' !! (5, 7) = Some NAME
  /\ pending w' 7 = Some "up"
  /\ outbox w' = [ sent_text 5 converting None; sent_voice 5 [] "up";
                   sent_text 5 ask_for_name None ].
Proof.
  destruct (@audio_upload_is_converted calm oof_world
              (audio_message 5 7 "song") "song" [] [] 0%nat 1%nat "up")
    as (H1 & H2 & H3 & _).
  - reflexivity.
  - reflexivity.
  - reflexivity.
  - reflexivity.
  - reflexivity.
  - reflexivity.
  - reflexivity.
  - split; [exact H1|]. split; [exact H2|exact H3].
Defined.

Lemma audio_upload_failure_leaves_no_trace_witness :
  let w' := step (message_update (audio_message 5 7 "song")) oof_world_offline in
  conversations w' = conversations oof_world_offline
  /\ user_data w' = user_data oof_world_offline
  /\ logged w'
     = [log_warning (message_update (audio_message 5 7 "song")) NetworkError].
Proof.
  destruct (@audio_upload_failure_leaves_no_trace offline oof_world_offline
              (audio_message 5 7 "song") "song" NetworkError)
    as (H1 & H2 & _ & _ & H3).
  - reflexivity.
  - reflexivity.
  - reflexivity.
  - reflexivity.
  - left. exists 0%nat. reflexivity.
  - split; [exact H1|]. split; [exact H2|exact H3].
Defined.


Lemma voice_while_waiting_is_ignored_witness :
  step (message_update (voice_message 5 7 "CCC")) waiting_world = waiting_world.
Proof.
  destruct (@voice_while_waiting_is_ignored calm waiting_world
              (voice_message 5 7 "CCC") "CCC") as (H & _).
  - reflexivity.
  - reflexivity.
  - reflexivity.
  - reflexivity.
  - exact H.
Defined.


Lemma blank_name_is_stored_witness :
  In (mkMeme (Some 2) EmptyString "BBB" 7 0)
     (SqliteMemeStorage.rows
        (meme_storage (step (message_update (text_message 5 7 "   "))
                            waiting_world))).
Proof.
  destruct (@blank_name_is_stored calm waiting_world
              (text_message 5 7 "   ") "   " "BBB") as (_ & H & _).
  - reflexivity.
  - reflexivity.
  - reflexivity.
  - reflexivity.
  - reflexivity.
  - exact H.
Defined.








Lemma other_users_are_untouched_witness :
  pending (@run calm [message_update (voice_message 6 8 "CCC")] waiting_world) 7
  = pending waiting_world 7.
Proof.
  destruct (@other_users_are_untouched calm
              [message_update (voice_message 6 8 "CCC")] waiting_world 7)
    as (_ & H & _).
  - repeat constructor. discriminate.
  - exact H.
Defined.

Lemma conversations_only_wait_for_a_name_witness : 1 = NAME.
Proof.
  apply (@conversations_only_wait_for_a_name calm oof_store 0%nat
           [message_update (voice_message 5 7 "BBB")] (5, 7) 1).
  reflexivity.
Defined.
